(** * run-sequential-promises: a model of [runSequentialPromises]

    Source: [src/ui/src/utils/run-sequential-promises.js].

    The function receives a list of jobs (functions from a copy of the
    result list to a promise) and two options, [threadsNumber] and
    [abortOnFail].  It is asynchronous JavaScript running on one event loop:
    synchronous code runs to completion, and the only suspension points are
    the reactions registered on promises.  The model below is a transition
    system whose steps are exactly those reactions:

    - the [.catch(..).then(..)] chain registered on a job's promise
      (lines 43-67), run when that promise settles;
    - the [.then(() => resultList)] reaction registered on
      [Promise.all(threads)] (line 74).

    The shared variables [jobIndex], [hasAborted] and [resultList] of the
    closure are fields of the state, and the promises created by
    [getPromiseThread] live in a store indexed by their creation order, so
    that handing the same promise out several times is visible as aliasing.

    Inputs are as the function documents them: every job returns a promise
    (it does not throw before returning one), and [threadsNumber] is a
    natural number.  [Array(len)] throws a [RangeError] from 2^32 on; the
    transition system describes the call once lines 32 and 73 have built
    their arrays, and [call] adds the case where one of them throws.  Values
    are immutable: a job does not write into the objects of the snapshot it
    is given, and reading a property has no effect (an accessor counts as
    the data property holding what its getter returns).  [jobIndex] is a
    JavaScript number; it stays far below 2^53, where [++] is exact, so it
    is an integer here. *)

From stdpp Require Import base list strings relations.
From Stdlib Require Import ZArith Lia.

Open Scope string_scope.
Open Scope Z_scope.
Open Scope nat_scope.

Set Warnings "-register-all".

(** ** JavaScript values *)

(** The values that jobs produce and that end up in the result list.
    Objects are association lists of own enumerable properties, in insertion
    order.  [VObjInheriting inherited fields] is an object that has, besides
    its own enumerable properties [fields], properties that a read finds
    but a spread does not copy: those of its prototype chain, or own
    non-enumerable ones.  [VObj fields] is an object with no such property
    under the names read here. *)
Inductive value : Type :=
| VUndefined
| VNull
| VBool (b : bool)
| VNum (n : Z)
| VStr (s : string)
| VObj (fields : list (string * value))
| VArr (items : list value)
| VObjInheriting (inherited : list (string * value))
                 (fields : list (string * value)).

(** [o.k] for the own property [k]; a missing property reads [undefined]. *)
Fixpoint get_field (k : string) (fields : list (string * value)) : value :=
  match fields with
  | [] => VUndefined
  | (k', v) :: rest => if String.eqb k k' then v else get_field k rest
  end.

(** Whether [k] is among the own properties listed. *)
Fixpoint has_field (k : string) (fields : list (string * value)) : bool :=
  match fields with
  | [] => false
  | (k', _) :: rest => String.eqb k k' || has_field k rest
  end.

(** [{ ...o, k: v }]: an existing property keeps its place and takes the new
    value, a new one goes last. *)
Fixpoint set_field (k : string) (v : value) (fields : list (string * value))
  : list (string * value) :=
  match fields with
  | [] => [(k, v)]
  | (k', v') :: rest =>
      if String.eqb k k' then (k, v) :: rest else (k', v') :: set_field k v rest
  end.

Definition is_undefined (v : value) : bool :=
  match v with VUndefined => true | _ => false end.

Definition is_null (v : value) : bool :=
  match v with VNull => true | _ => false end.

(** [v.error] where [v] is neither [undefined] nor [null]: the own property
    if there is one, otherwise the one found further up.  Primitives and
    plain arrays have no such property. *)
Definition error_of (v : value) : value :=
  match v with
  | VObj fields => get_field "error" fields
  | VObjInheriting inherited fields =>
      if has_field "error" fields then get_field "error" fields
      else get_field "error" inherited
  | _ => VUndefined
  end.

(** The properties that [{ ...v }] copies from an object. *)
Definition own_fields (v : value) : list (string * value) :=
  match v with
  | VObj fields => fields
  | VObjInheriting _ fields => fields
  | _ => []
  end.

(** Line 52:
    [result !== void 0 && result !== null && result.error !== void 0]. *)
Definition has_error (result : value) : bool :=
  negb (is_undefined result) && negb (is_null result)
  && negb (is_undefined (error_of result)).

(** [a[i] = v] on an array: in range it replaces the element, beyond the end
    JavaScript extends the array, the skipped positions reading
    [undefined]. *)
Definition array_set (i : nat) (v : value) (a : list value) : list value :=
  if decide (i < length a) then <[i := v]> a
  else a ++ replicate (i - length a) VUndefined ++ [v].

(** ** Result slots *)

(** Line 63: [{ promiseIndex: currentJobIndex, data: result }]. *)
Definition Success (idx : nat) (data : value) : value :=
  VObj [("promiseIndex", VNum (Z.of_nat idx)); ("data", data)].

(** Line 44: [{ promiseIndex: currentJobIndex, error: err }]. *)
Definition Failure (idx : nat) (err : value) : value :=
  VObj [("promiseIndex", VNum (Z.of_nat idx)); ("error", err)].

(** Line 32: the slots start as [null]. *)
Definition Empty : value := VNull.

Definition is_Success (idx : nat) (slot : value) : Prop :=
  ∃ data, slot = Success idx data.

Definition is_Failure (idx : nat) (slot : value) : Prop :=
  ∃ err, slot = Failure idx err.

(** ** Promises and jobs *)

(** How the promise returned by a job ends: fulfilled with a value, rejected
    with a reason, or never settled. *)
Inductive settlement : Type :=
| Fulfilled (v : value)
| Rejected (err : value)
| Pending.

(** A job has the documented form [(resultList: Array) => Promise<any>]; it
    is given the copy [[ ...resultList ]] made at line 43. *)
Definition job : Type := list value → settlement.

(** State of a promise created by the function itself.  A lane promise is
    resolved by [resolve()], so it carries no value; it is rejected with the
    object built at line 57. *)
Inductive pstate : Type :=
| PPending
| PResolved
| PRejected (reason : value).

Definition settle (new old : pstate) : pstate :=
  match old with PPending => new | _ => old end.

(** One promise made by [getPromiseThread], with the job whose promise its
    [runNextPromise] loop is waiting for, if any. *)
Record lane : Type := Lane {
  lane_promise : pstate;
  lane_job : option (nat * settlement)
}.

(** ** The closure state *)

(** The variables shared by everything inside one call of
    [runSequentialPromises] (lines 29-32), the promises made by
    [getPromiseThread], and a log, oldest first, of the job invocations made
    at line 43: the index and the snapshot passed. *)
Record state : Type := State {
  jobIndex : Z;
  hasAborted : bool;
  resultList : list value;
  lanes : list lane;
  calls : list (nat * list value)
}.

(** A configuration adds the promise built at line 74 and returned to the
    caller.  When it is resolved its value is the array [resultList] itself,
    not a copy. *)
Record config : Type := Config {
  shared : state;
  returned : pstate
}.

Definition set_lane (l : nat) (ln : lane) (st : state) : state :=
  State (jobIndex st) (hasAborted st) (resultList st)
        (<[l := ln]> (lanes st)) (calls st).

(** [resolve()] and [reject(..)] of lane [l]; a settled promise stays as it
    is. *)
Definition lane_settle (l : nat) (p : pstate) (st : state) : state :=
  match lanes st !! l with
  | Some ln => set_lane l (Lane (settle p (lane_promise ln)) (lane_job ln)) st
  | None => st
  end.

Definition lane_wait (l : nat) (idx : nat) (s : settlement) (st : state) : state :=
  match lanes st !! l with
  | Some ln => set_lane l (Lane (lane_promise ln) (Some (idx, s))) st
  | None => st
  end.

Definition lookupZ {A} (i : Z) (xs : list A) : option A :=
  if (i <? 0)%Z then None else xs !! Z.to_nat i.

Definition promise_of (st : state) (l : nat) : pstate :=
  match lanes st !! l with
  | Some ln => lane_promise ln
  | None => PPending
  end.

Definition is_resolved (p : pstate) : bool :=
  match p with PResolved => true | _ => false end.

Definition is_rejected (p : pstate) : bool :=
  match p with PRejected _ => true | _ => false end.

(** [Promise.all]: rejected as soon as one of the promises is, fulfilled
    once all of them are. *)
Definition all_of (ps : list pstate) : pstate :=
  match List.find is_rejected ps with
  | Some p => p
  | None => if forallb is_resolved ps then PResolved else PPending
  end.

(** What a caller holding the returned promise observes. *)
Inductive outcome : Type :=
| Unsettled
| Resolves (rl : list value)
| Rejects (reason : value).

Definition observe (c : config) : outcome :=
  match returned c with
  | PPending => Unsettled
  | PResolved => Resolves (resultList (shared c))
  | PRejected r => Rejects r
  end.

(** The jobs whose promise some lane is waiting for. *)
Definition in_flight (st : state) : list nat :=
  omap (λ ln, fst <$> lane_job ln) (lanes st).

Section run.

Variable promiseList : list job.
Variable threadsNumber : nat.
Variable abortOnFail : bool.

(** Line 31. *)
Definition totalJobs : nat := length promiseList.

(** Lines 35-43, up to the call of the job.  The reactions of lines 44-67
    are registered on the promise the job returns and run in a later step
    ([settle_job]). *)
Definition runNextPromise (l : nat) (st : state) : state :=
  let currentJobIndex := (jobIndex st + 1)%Z in
  let st := State currentJobIndex (hasAborted st) (resultList st)
                  (lanes st) (calls st) in
  if hasAborted st || (Z.of_nat totalJobs <=? currentJobIndex)%Z then
    lane_settle l PResolved st
  else
    match lookupZ currentJobIndex promiseList with
    | Some j =>
        let idx := Z.to_nat currentJobIndex in
        let snapshot := resultList st in
        lane_wait l idx (j snapshot)
          (State (jobIndex st) (hasAborted st) (resultList st) (lanes st)
                 (calls st ++ [(idx, snapshot)]))
    | None => st (* no such job: not the case for an index in range *)
    end.

(** Line 44: a rejection of the job's promise is turned into a value. *)
Definition caught (currentJobIndex : nat) (s : settlement) : option value :=
  match s with
  | Fulfilled v => Some v
  | Rejected err => Some (Failure currentJobIndex err)
  | Pending => None
  end.

Definition write_slot (idx : nat) (v : value) (st : state) : state :=
  State (jobIndex st) (hasAborted st) (array_set idx v (resultList st))
        (lanes st) (calls st).

Definition set_aborted (st : state) : state :=
  State (jobIndex st) true (resultList st) (lanes st) (calls st).

(** Line 57: [{ ...result, resultList: [ ...resultList ] }], for a [result]
    that passed the test of line 52, hence an object.  The spread copies the
    own enumerable properties only. *)
Definition rejection (result : value) (rl : list value) : value :=
  match result with
  | VObj fields => VObj (set_field "resultList" (VArr rl) fields)
  | VObjInheriting _ fields => VObj (set_field "resultList" (VArr rl) fields)
  | _ => VObj [("resultList", VArr rl)]
  end.

(** Lines 45-67: the callback given to [.then]. *)
Definition on_result (l : nat) (currentJobIndex : nat) (result : value)
    (st : state) : state :=
  if hasAborted st then lane_settle l PResolved st
  else if has_error result then
    let st := write_slot currentJobIndex result st in
    if abortOnFail then
      let st := set_aborted st in
      lane_settle l (PRejected (rejection result (resultList st))) st
    else runNextPromise l st
  else
    runNextPromise l
      (write_slot currentJobIndex (Success currentJobIndex result) st).

(** The promise of the job that lane [l] waits for settles, and the chain of
    lines 44-67 runs. *)
Definition settle_job (l : nat) (st : state) : option state :=
  match lanes st !! l with
  | Some (Lane p (Some (idx, s))) =>
      match caught idx s with
      | Some result =>
          Some (on_result l idx result (set_lane l (Lane p None) st))
      | None => None
      end
  | _ => None
  end.

(** Lines 34 and 70-71: a new promise whose executor calls [runNextPromise]
    at once.  Returns the promise (its place in the store). *)
Definition getPromiseThread (st : state) : nat * state :=
  let l := length (lanes st) in
  (l, runNextPromise l
        (State (jobIndex st) (hasAborted st) (resultList st)
               (lanes st ++ [Lane PPending None]) (calls st))).

(** Lines 29-32. *)
Definition fresh : state :=
  State (-1) false (replicate totalJobs Empty) [] [].

(** Line 73: [Array(threadsNumber).fill(getPromiseThread())], when
    [Array(threadsNumber)] does not throw (see [call]).  The argument of
    [fill] is evaluated once, and that one promise fills every place. *)
Definition threads : list nat :=
  replicate threadsNumber (fst (getPromiseThread fresh)).

(** The configuration when [runSequentialPromises] returns (it returns
    unless an [Array(..)] throws, see [call]). *)
Definition start : config := Config (snd (getPromiseThread fresh)) PPending.

Definition awaited (st : state) : pstate :=
  all_of (promise_of st <$> threads).

(** Line 74: the returned promise follows [Promise.all(threads)]; on
    fulfilment its value is [resultList]. *)
Definition settle_returned (c : config) : option config :=
  match returned c with
  | PPending =>
      match awaited (shared c) with
      | PPending => None
      | p => Some (Config (shared c) p)
      end
  | _ => None
  end.

(** One turn of the event loop. *)
Inductive step : config → config → Prop :=
| step_job l c st' :
    settle_job l (shared c) = Some st' → step c (Config st' (returned c))
| step_returned c c' :
    settle_returned c = Some c' → step c c'.

Definition reachable (c : config) : Prop := rtc step start c.

(** No reaction is left to run. *)
Definition quiescent (c : config) : Prop := ∀ c', ¬ step c c'.

(** An executable scheduler: the reaction on the returned promise first,
    then the lanes in creation order. *)
Fixpoint first_job (ls : list nat) (st : state) : option state :=
  match ls with
  | [] => None
  | l :: ls' =>
      match settle_job l st with
      | Some st' => Some st'
      | None => first_job ls' st
      end
  end.

Definition next (c : config) : option config :=
  match settle_returned c with
  | Some c' => Some c'
  | None =>
      match first_job (seq 0 (length (lanes (shared c)))) (shared c) with
      | Some st' => Some (Config st' (returned c))
      | None => None
      end
  end.

Fixpoint exec (fuel : nat) (c : config) : config :=
  match fuel with
  | 0 => c
  | S fuel' =>
      match next c with
      | Some c' => exec fuel' c'
      | None => c
      end
  end.

(** Every job settles at most once and the returned promise once. *)
Definition run : config := exec (totalJobs + 1) start.

(** ** The shape of the reachable states *)

(** What lines 53 and 63 store for a caught [result]. *)
Definition slot_for (idx : nat) (result : value) : value :=
  if has_error result then result else Success idx result.

(** A result list in which exactly the first [k] slots have been written. *)
Record snapshot_ok (k : nat) (s : list value) : Prop := {
  snap_length : length s = totalJobs;
  snap_done : ∀ m, m < k → ∃ v, s !! m = Some v ∧ v ≠ Empty;
  snap_todo : ∀ m, k ≤ m → m < totalJobs → s !! m = Some Empty
}.

(** Slot [k] holds what job [k], called with the logged snapshot, produced. *)
Definition recorded (st : state) (k : nat) : Prop :=
  ∃ j s result,
    promiseList !! k = Some j ∧ calls st !! k = Some (k, s) ∧
    caught k (j s) = Some result ∧
    resultList st !! k = Some (slot_for k result).

Record base (m c : nat) (st : state) : Prop := {
  base_le : m ≤ totalJobs;
  base_length : length (resultList st) = totalJobs;
  base_calls : length (calls st) = c;
  base_log : ∀ k e, calls st !! k = Some e → e.1 = k ∧ snapshot_ok k e.2;
  base_done : ∀ k, k < m → recorded st k;
  base_todo : ∀ k, m ≤ k → k < totalJobs → resultList st !! k = Some Empty
}.

(** The three shapes a state can have between two turns of the event loop:
    the single lane waits for job [i]; it has run out of jobs; it has
    rejected at job [i]. *)
Inductive phase (st : state) : Prop :=
| Running i j :
    base i (S i) st →
    promiseList !! i = Some j →
    calls st !! i = Some (i, resultList st) →
    lanes st = [Lane PPending (Some (i, j (resultList st)))] →
    jobIndex st = Z.of_nat i →
    hasAborted st = false →
    phase st
| Finished :
    base totalJobs totalJobs st →
    lanes st = [Lane PResolved None] →
    jobIndex st = Z.of_nat totalJobs →
    hasAborted st = false →
    phase st
| Aborted i j s result :
    base (S i) (S i) st →
    abortOnFail = true →
    promiseList !! i = Some j →
    calls st !! i = Some (i, s) →
    caught i (j s) = Some result →
    has_error result = true →
    resultList st !! i = Some result →
    lanes st = [Lane (PRejected (rejection result (resultList st))) None] →
    jobIndex st = Z.of_nat i →
    hasAborted st = true →
    phase st.

(** The returned promise is pending or has followed what it awaits. *)
Definition consistent (c : config) : Prop :=
  phase (shared c) ∧
  (returned c = PPending ∨
   (returned c ≠ PPending ∧ returned c = awaited (shared c))).

(** The reactions of jobs alone. *)
Definition job_step (st st' : state) : Prop :=
  ∃ l, settle_job l st = Some st'.

(** *** A bound on the number of turns *)

(** Jobs still to settle, as far as the state can tell. *)
Definition work (st : state) : nat :=
  match in_flight st with
  | [] => 0
  | _ => totalJobs - Z.to_nat (jobIndex st)
  end.

Definition measure (c : config) : nat :=
  work (shared c) + (match returned c with PPending => 1 | _ => 0 end).

End run.

(** The promise returned by [runSequentialPromises(promiseList,
    { threadsNumber, abortOnFail })], as its caller sees it once nothing is
    left to run. *)
Definition runSequentialPromises (promiseList : list job)
    (threadsNumber : nat) (abortOnFail : bool) : outcome :=
  observe (run promiseList threadsNumber abortOnFail).

(** [Array(len)] makes an array for a length below 2^32 and throws a
    [RangeError] otherwise. *)
Definition array_length_ok (len : nat) : bool := (Z.of_nat len <? 2 ^ 32)%Z.

(** How the call itself completes: it throws, or it returns its promise. *)
Inductive completion : Type :=
| ThrowsRangeError
| Returns (o : outcome).

(** The whole call.  [Array(totalJobs)] at line 32 comes first (it cannot
    throw for an array, which is shorter than 2^32, only for an array-like
    argument); [Array(threadsNumber)] at line 73 is evaluated before the
    argument of [fill], so when it throws no lane has been started and no
    job called. *)
Definition call (promiseList : list job) (threadsNumber : nat)
    (abortOnFail : bool) : completion :=
  if array_length_ok (length promiseList) then
    if array_length_ok threadsNumber then
      Returns (runSequentialPromises promiseList threadsNumber abortOnFail)
    else ThrowsRangeError
  else ThrowsRangeError.

(** A job whose promise settles whatever snapshot it is given. *)
Definition settles (j : job) : Prop := ∀ snapshot, j snapshot ≠ Pending.

(** ** Jobs used in the examples *)

(** [() => Promise.resolve(v)] *)
Definition resolves_with (v : value) : job := λ _, Fulfilled v.

(** [() => Promise.reject(err)] *)
Definition rejects_with (err : value) : job := λ _, Rejected err.

(** [() => new Promise(() => {})] *)
Definition hangs : job := λ _, Pending.

(** [snapshot => Promise.resolve(snapshot)] *)
Definition echo : job := λ snapshot, Fulfilled (VArr snapshot).

(** ** A plain loop, for comparison *)

(** The jobs run one after the other by an ordinary loop: job [i] gets the
    list as it stands, its outcome is stored at [i], and the loop stops at
    the first stored error when [abortOnFail] is set.  This is not code of
    the source; [runSequentialPromises] is compared with it below. *)
Fixpoint sequential_loop (abortOnFail : bool) (i : nat) (jobs : list job)
    (rl : list value) : outcome :=
  match jobs with
  | [] => Resolves rl
  | j :: rest =>
      match caught i (j rl) with
      | None => Unsettled
      | Some result =>
          let rl' := <[i := slot_for i result]> rl in
          if has_error result && abortOnFail
          then Rejects (rejection result rl')
          else sequential_loop abortOnFail (S i) rest rl'
      end
  end.

Definition sequential (jobs : list job) (abortOnFail : bool) : outcome :=
  sequential_loop abortOnFail 0 jobs (replicate (length jobs) Empty).

(** A job that always fulfils, with a value that has no defined [error]
    property. *)
Definition fulfils_cleanly (j : job) : Prop :=
  ∀ snapshot, ∃ v, j snapshot = Fulfilled v ∧ has_error v = false.

(** A job that always rejects, with a reason other than [undefined]. *)
Definition rejects_really (j : job) : Prop :=
  ∀ snapshot, ∃ err, j snapshot = Rejected err ∧ err ≠ VUndefined.

(** ** The reachable states have that shape *)

Section invariant.

Context (promiseList : list job) (abortOnFail : bool).

Local Abbreviation n := (totalJobs promiseList).
Local Abbreviation snapshot_ok := (snapshot_ok promiseList).
Local Abbreviation recorded := (recorded promiseList).
Local Abbreviation base := (base promiseList).
Local Abbreviation base_le := (base_le promiseList).
Local Abbreviation base_length := (base_length promiseList).
Local Abbreviation base_calls := (base_calls promiseList).
Local Abbreviation base_log := (base_log promiseList).
Local Abbreviation base_done := (base_done promiseList).
Local Abbreviation base_todo := (base_todo promiseList).
Local Abbreviation phase := (phase promiseList abortOnFail).
Local Abbreviation Running := (Running promiseList abortOnFail).
Local Abbreviation Finished := (Finished promiseList abortOnFail).
Local Abbreviation Aborted := (Aborted promiseList abortOnFail).
Local Abbreviation consistent N := (consistent promiseList N abortOnFail).
Local Abbreviation job_step := (job_step promiseList abortOnFail).
Local Abbreviation work := (work promiseList).
Local Abbreviation measure := (measure promiseList).

Lemma slot_for_filled idx result : slot_for idx result ≠ Empty.
Proof.
  unfold slot_for. destruct (has_error result) eqn:E; [|done].
  intros ->. discriminate E.
Qed.

Lemma base_snapshot m c st : base m c st → snapshot_ok m (resultList st).
Proof.
  intros B. split.
  - apply B.
  - intros k Hk. destruct (base_done _ _ _ B k Hk) as (j & s & r & _ & _ & _ & Hr).
    eexists. split; [exact Hr|apply slot_for_filled].
  - apply B.
Qed.

Lemma runNext_phase m st :
  base m m st →
  lanes st = [Lane PPending None] →
  jobIndex st = (Z.of_nat m - 1)%Z →
  hasAborted st = false →
  phase (runNextPromise promiseList 0 st).
Proof.
  intros B Hl Hj Ha. pose proof (base_snapshot _ _ _ B) as Hsnap.
  destruct st as [ji ha rl ls cs]; simpl in *; subst.
  unfold runNextPromise; simpl.
  replace (Z.of_nat m - 1 + 1)%Z with (Z.of_nat m) by lia.
  destruct (Z.leb_spec (Z.of_nat n) (Z.of_nat m)) as [Hge|Hlt].
  - assert (m = n) as -> by (pose proof (base_le _ _ _ B); lia).
    apply Finished; simpl; try done.
    destruct B as [? ? ? ? ? ?]; split; simpl in *; done.
  - assert (m < n) as Hm by lia.
    unfold lookupZ. destruct (Z.ltb_spec (Z.of_nat m) 0) as [?|_]; [lia|].
    rewrite Nat2Z.id.
    destruct (lookup_lt_is_Some_2 promiseList m Hm) as [j Hjob].
    rewrite Hjob. unfold lane_wait; simpl.
    destruct B as [Ble Blen Bcalls Blog Bdone Btodo]; simpl in *.
    apply (Running _ m j); simpl; try done.
    + split; simpl; try done.
      * rewrite length_app; simpl; lia.
      * intros k e He. apply lookup_app_Some in He as [He|[Hk He]].
        { by apply Blog. }
        rewrite Bcalls in Hk, He.
        apply list_lookup_singleton_Some in He as [Hk' <-]. simpl.
        split; [lia|]. by replace k with m by lia.
      * intros k Hk. destruct (Bdone k Hk) as (j' & s & r & H1 & H2 & H3 & H4).
        exists j', s, r. split_and!; try done.
        by apply lookup_app_l_Some.
    + rewrite lookup_app_r by lia. by rewrite Bcalls, Nat.sub_diag.
Qed.

Lemma base_write i j ji ha rl ls cs result ji' ha' ls' :
  base i (S i) (State ji ha rl ls cs) →
  promiseList !! i = Some j →
  cs !! i = Some (i, rl) →
  caught i (j rl) = Some result →
  base (S i) (S i) (State ji' ha' (array_set i (slot_for i result) rl) ls' cs).
Proof.
  intros [Ble Blen Bcalls Blog Bdone Btodo] Hjob Hcall Hres; simpl in *.
  assert (i < n) as Hi by (apply lookup_lt_Some in Hjob; done).
  unfold array_set. destruct (decide (i < length rl)) as [_|]; [|lia].
  split; simpl; try done.
  - by rewrite length_insert.
  - intros k Hk. destruct (decide (k = i)) as [->|Hne].
    + exists j, rl, result. split_and!; try done.
      apply list_lookup_insert_eq. lia.
    + destruct (Bdone k) as (j' & s & r & H1 & H2 & H3 & H4); [lia|].
      exists j', s, r. split_and!; try done.
      simpl in *. by rewrite list_lookup_insert_ne.
  - intros k Hk1 Hk2. rewrite list_lookup_insert_ne by lia. apply Btodo; lia.
Qed.

Lemma settle_job_lane l st st' :
  phase st → settle_job promiseList abortOnFail l st = Some st' → l = 0.
Proof.
  intros P H. unfold settle_job in H.
  destruct l as [|l]; [done|].
  destruct P as [i j _ _ _ Hl _ _|_ Hl _ _|i j s r _ _ _ _ _ _ _ Hl _ _];
    rewrite Hl in H; discriminate H.
Qed.

Lemma settle_job_phase l st st' :
  phase st → settle_job promiseList abortOnFail l st = Some st' → phase st'.
Proof.
  intros P H. pose proof (settle_job_lane _ _ _ P H) as ->.
  unfold settle_job in H.
  destruct P as [i j B Hjob Hcall Hl Hj Ha|_ Hl _ _|i j s r _ _ _ _ _ _ _ Hl _ _];
    rewrite Hl in H; simpl in H; [|discriminate H..].
  destruct (caught i (j (resultList st))) as [result|] eqn:Hres; [|discriminate H].
  injection H as <-.
  destruct st as [ji ha rl ls cs]; simpl in *; subst.
  pose proof (base_write _ _ _ _ _ _ _ _ (Z.of_nat i) false
                [Lane PPending None] B Hjob Hcall Hres) as B'.
  match goal with
  | |- context [on_result _ _ 0 i result ?s] =>
      enough (∀ ab, ab = abortOnFail →
                phase (on_result promiseList ab 0 i result s)) as X
        by (by apply X)
  end.
  intros ab Eab.
  unfold on_result, set_lane, write_slot; simpl.
  unfold slot_for in B'. destruct (has_error result) eqn:E.
  - destruct ab.
    + unfold lane_settle, set_aborted, set_lane; simpl.
      assert (i < length rl) as Hi.
      { rewrite (base_length _ _ _ B : length rl = n).
        apply lookup_lt_Some in Hjob; done. }
      apply (Aborted _ i j rl result); simpl; try done.
      * destruct B' as [? ? ? ? ? ?]; split; simpl in *; done.
      * unfold array_set. rewrite decide_True by done.
        by apply list_lookup_insert_eq.
    + apply (runNext_phase (S i)); simpl; try done. lia.
  - apply (runNext_phase (S i)); simpl; try done. lia.
Qed.

Lemma settle_job_det l l' st a b :
  phase st →
  settle_job promiseList abortOnFail l st = Some a →
  settle_job promiseList abortOnFail l' st = Some b →
  a = b.
Proof.
  intros P Ha Hb.
  pose proof (settle_job_lane _ _ _ P Ha) as ->.
  pose proof (settle_job_lane _ _ _ P Hb) as ->.
  congruence.
Qed.

Lemma start_phase : phase (shared (start promiseList)).
Proof.
  unfold start, getPromiseThread, fresh; simpl.
  apply (runNext_phase 0); simpl; try done.
  split; simpl; try done.
  - lia.
  - apply length_replicate.
  - intros k Hk. lia.
  - intros k _ Hk. by apply lookup_replicate_2.
Qed.

(** *** The returned promise *)

Lemma threads_alias N : threads promiseList N = replicate N 0.
Proof. reflexivity. Qed.

Lemma find_rejected_replicate N p :
  is_rejected p = false → List.find is_rejected (replicate N p) = None.
Proof. intros H. induction N as [|N IH]; simpl; [done|by rewrite H]. Qed.

Lemma forallb_resolved_replicate N :
  forallb is_resolved (replicate N PResolved) = true.
Proof. induction N as [|N IH]; simpl; done. Qed.

Lemma all_of_replicate N p : all_of (replicate (S N) p) = p.
Proof.
  unfold all_of. destruct p as [| |r].
  - rewrite find_rejected_replicate by done. done.
  - rewrite find_rejected_replicate by done.
    by rewrite forallb_resolved_replicate.
  - done.
Qed.

Lemma awaited_0 st : awaited promiseList 0 st = PResolved.
Proof. reflexivity. Qed.

Lemma awaited_S N st : awaited promiseList (S N) st = promise_of st 0.
Proof.
  unfold awaited. rewrite threads_alias, fmap_replicate.
  apply all_of_replicate.
Qed.

(** A lane that is waited on is pending: no reaction of a job runs once the
    lane promise is settled. *)
Lemma settle_job_pending l st st' :
  phase st → settle_job promiseList abortOnFail l st = Some st' →
  promise_of st 0 = PPending.
Proof.
  intros P H. pose proof (settle_job_lane _ _ _ P H) as ->.
  unfold settle_job in H. unfold promise_of.
  destruct P as [i j _ _ _ Hl _ _|_ Hl _ _|i j s r _ _ _ _ _ _ _ Hl _ _];
    rewrite Hl in *; simpl in *; [done|discriminate H..].
Qed.

Lemma settle_returned_Some N c c' :
  settle_returned promiseList N c = Some c' →
  returned c = PPending ∧ shared c' = shared c ∧
  returned c' = awaited promiseList N (shared c) ∧ returned c' ≠ PPending.
Proof.
  unfold settle_returned. intros H.
  destruct (returned c); [|discriminate H..].
  destruct (awaited promiseList N (shared c)); [discriminate H|..];
    injection H as <-; done.
Qed.

Lemma step_consistent N c c' :
  consistent N c → step promiseList N abortOnFail c c' → consistent N c'.
Proof.
  intros [P R] S. destruct S as [l c st' H|c c' H].
  - split; simpl; [by eapply settle_job_phase|].
    destruct R as [R|[R1 R2]]; [by left|]. right. split; [done|].
    destruct N as [|N]; [done|].
    rewrite awaited_S in R2.
    rewrite (settle_job_pending _ _ _ P H) in R2. done.
  - apply settle_returned_Some in H as (H1 & H2 & H3 & H4).
    split; [by rewrite H2|]. right. by rewrite H2.
Qed.

Lemma start_consistent N : consistent N (start promiseList).
Proof. split; [apply start_phase|by left]. Qed.

Lemma reachable_consistent N c :
  reachable promiseList N abortOnFail c → consistent N c.
Proof.
  revert c. apply rtc_ind_r; [apply start_consistent|].
  intros c c' _ S IH. by eapply step_consistent.
Qed.

(** *** What one reaction of a job changes *)

Lemma runNext_resultList l st :
  resultList (runNextPromise promiseList l st) = resultList st.
Proof.
  unfold runNextPromise, lane_settle, lane_wait, set_lane; simpl.
  repeat case_match; done.
Qed.

Lemma runNext_calls l st :
  calls st `prefix_of` calls (runNextPromise promiseList l st).
Proof.
  unfold runNextPromise, lane_settle, lane_wait, set_lane; simpl.
  repeat case_match; simpl; try done; by apply prefix_app_r.
Qed.

Lemma settle_job_effect l st st' :
  phase st → settle_job promiseList abortOnFail l st = Some st' →
  ∃ i j result,
    in_flight st = [i] ∧ jobIndex st = Z.of_nat i ∧
    promiseList !! i = Some j ∧
    calls st !! i = Some (i, resultList st) ∧
    caught i (j (resultList st)) = Some result ∧
    resultList st !! i = Some Empty ∧
    resultList st' = <[i := slot_for i result]> (resultList st) ∧
    calls st `prefix_of` calls st'.
Proof.
  intros P H. pose proof (settle_job_lane _ _ _ P H) as ->.
  unfold settle_job in H.
  destruct P as [i j B Hjob Hcall Hl Hj Ha|_ Hl _ _|i j s r _ _ _ _ _ _ _ Hl _ _];
    rewrite Hl in H; simpl in H; [|discriminate H..].
  destruct (caught i (j (resultList st))) as [result|] eqn:Hres; [|discriminate H].
  injection H as <-.
  assert (i < n) as Hi by (apply lookup_lt_Some in Hjob; done).
  exists i, j, result. split_and!; try done.
  - unfold in_flight. by rewrite Hl.
  - apply B; [done|lia].
  - unfold on_result, slot_for, write_slot, set_aborted, lane_settle, set_lane,
      array_set; simpl.
    rewrite Ha, (base_length _ _ _ B), decide_True by done.
    repeat case_match; simpl; rewrite ?runNext_resultList; done.
  - unfold on_result, write_slot, set_aborted, lane_settle, set_lane; simpl.
    rewrite Ha.
    repeat case_match; simpl; try done;
      (etrans; [|apply runNext_calls]); done.
Qed.

(** *** Termination of the scheduler *)

Lemma settle_job_work l st st' :
  phase st → settle_job promiseList abortOnFail l st = Some st' →
  work st' < work st.
Proof.
  intros P H.
  pose proof (settle_job_phase _ _ _ P H) as P'.
  destruct (settle_job_effect _ _ _ P H)
    as (i & j & r & Hfl & Hj & Hjob & _ & _ & Hempty & Hrl & _).
  assert (i < n) as Hi by (apply lookup_lt_Some in Hjob; done).
  unfold work at 2. rewrite Hfl, Hj, Nat2Z.id.
  assert (i < length (resultList st)) as Hi'
    by (apply lookup_lt_Some in Hempty; done).
  unfold work.
  destruct P' as [i' j' B' _ _ Hl' Hj' _|_ Hl' _ _|i' j' s' r' _ _ _ _ _ _ _ Hl' _ _];
    unfold in_flight; rewrite Hl'; simpl; [|lia..].
  rewrite Hj', Nat2Z.id.
  destruct (decide (i' ≤ i)) as [Hle|]; [|lia]. exfalso.
  pose proof (base_todo _ _ _ B' i Hle Hi) as Hc.
  rewrite Hrl, list_lookup_insert_eq in Hc by done.
  injection Hc. apply slot_for_filled.
Qed.

Lemma first_job_Some ls st st' :
  first_job promiseList abortOnFail ls st = Some st' →
  ∃ l, settle_job promiseList abortOnFail l st = Some st'.
Proof.
  induction ls as [|l ls IH]; simpl; [done|].
  destruct (settle_job promiseList abortOnFail l st) eqn:E; [|done].
  intros [= <-]. by exists l.
Qed.

Lemma next_step N c c' :
  next promiseList N abortOnFail c = Some c' →
  step promiseList N abortOnFail c c'.
Proof.
  unfold next.
  destruct (settle_returned promiseList N c) eqn:E.
  - intros [= <-]. by apply step_returned.
  - destruct (first_job _ _ _ _) eqn:F; [|done]. intros [= <-].
    apply first_job_Some in F as [l F]. by eapply step_job.
Qed.

Lemma step_measure N c c' :
  consistent N c → step promiseList N abortOnFail c c' →
  measure c' < measure c.
Proof.
  intros [P _] S. destruct S as [l c st' H|c c' H]; unfold measure; simpl.
  - pose proof (settle_job_work _ _ _ P H). lia.
  - apply settle_returned_Some in H as (H1 & H2 & H3 & H4).
    rewrite H1, H2. destruct (returned c'); [done|lia..].
Qed.

Lemma next_None_quiescent N c :
  consistent N c → next promiseList N abortOnFail c = None →
  quiescent promiseList N abortOnFail c.
Proof.
  intros [P _] H c' S. unfold next in H.
  destruct S as [l c st' Hs|c c' Hs]; [|by rewrite Hs in H].
  destruct (settle_returned promiseList N c); [done|].
  pose proof (settle_job_lane _ _ _ P Hs) as ->.
  destruct P as [i j _ _ _ Hl _ _|_ Hl _ _|i j s r _ _ _ _ _ _ _ Hl _ _];
    rewrite Hl in H; simpl in H; rewrite Hs in H; done.
Qed.

Lemma exec_reachable N fuel c :
  rtc (step promiseList N abortOnFail) c (exec promiseList N abortOnFail fuel c).
Proof.
  revert c. induction fuel as [|fuel IH]; intros c; simpl; [done|].
  destruct (next promiseList N abortOnFail c) eqn:E; [|done].
  eapply rtc_l; [by apply next_step|apply IH].
Qed.

Lemma exec_quiescent N fuel c :
  consistent N c → measure c ≤ fuel →
  next promiseList N abortOnFail (exec promiseList N abortOnFail fuel c) = None.
Proof.
  revert c. induction fuel as [|fuel IH]; intros c C Hm; simpl.
  - destruct (next promiseList N abortOnFail c) eqn:E; [|done].
    apply next_step in E. pose proof (step_measure _ _ _ C E). lia.
  - destruct (next promiseList N abortOnFail c) eqn:E; [|done].
    apply next_step in E. apply IH; [by eapply step_consistent|].
    pose proof (step_measure _ _ _ C E). lia.
Qed.

Lemma start_measure : measure (start promiseList) ≤ n + 1.
Proof.
  unfold measure, work; simpl.
  pose proof start_phase as P.
  destruct P as [i j _ _ _ Hl Hj _|_ Hl _ _|i j s r _ _ _ _ _ _ _ Hl _ _];
    unfold in_flight; simpl in *; rewrite Hl; simpl; lia.
Qed.

Lemma run_reachable N :
  reachable promiseList N abortOnFail (run promiseList N abortOnFail).
Proof. apply exec_reachable. Qed.

Lemma run_quiescent N :
  quiescent promiseList N abortOnFail (run promiseList N abortOnFail).
Proof.
  apply next_None_quiescent.
  - apply reachable_consistent, run_reachable.
  - apply exec_quiescent; [apply start_consistent|apply start_measure].
Qed.

(** *** Determinism *)

Lemma reachable_shared N c :
  reachable promiseList N abortOnFail c →
  rtc job_step (shared (start promiseList)) (shared c).
Proof.
  revert c. apply rtc_ind_r; [done|].
  intros c c' _ S IH. destruct S as [l c st' H|c c' H]; simpl.
  - eapply rtc_r; [exact IH|]. by exists l.
  - apply settle_returned_Some in H as (_ & -> & _). exact IH.
Qed.

Lemma job_step_unique a b c :
  phase a → rtc job_step a b → rtc job_step a c →
  nf job_step b → nf job_step c → b = c.
Proof.
  intros P Hb. revert c P.
  induction Hb as [a|a a1 b [l S1] Hb IH]; intros c P Hc Nb Nc.
  - by apply (rtc_nf (R:=job_step)).
  - destruct Hc as [a|a a2 c [l' S2] Hc].
    + exfalso. apply Nc. exists a1. by exists l.
    + pose proof (settle_job_det _ _ _ _ _ P S1 S2) as <-.
      apply IH; try done. by eapply settle_job_phase.
Qed.

Lemma quiescent_returned N c :
  consistent N c → quiescent promiseList N abortOnFail c →
  returned c = awaited promiseList N (shared c).
Proof.
  intros [_ R] Q. destruct R as [R|[_ R]]; [|done].
  destruct (settle_returned promiseList N c) as [c'|] eqn:E.
  - exfalso. apply (Q c'). by apply step_returned.
  - unfold settle_returned in E. rewrite R in E. rewrite R.
    destruct (awaited promiseList N (shared c)); done.
Qed.

Lemma quiescent_nf N c :
  quiescent promiseList N abortOnFail c → nf job_step (shared c).
Proof.
  intros Q [st' [l H]]. apply (Q (Config st' (returned c))).
  by eapply step_job.
Qed.

Lemma quiescent_unique N c1 c2 :
  reachable promiseList N abortOnFail c1 →
  reachable promiseList N abortOnFail c2 →
  quiescent promiseList N abortOnFail c1 →
  quiescent promiseList N abortOnFail c2 →
  c1 = c2.
Proof.
  intros R1 R2 Q1 Q2.
  assert (shared c1 = shared c2) as Hs.
  { apply (job_step_unique (shared (start promiseList))).
    - apply start_phase.
    - by eapply reachable_shared.
    - by eapply reachable_shared.
    - by eapply quiescent_nf.
    - by eapply quiescent_nf. }
  pose proof (quiescent_returned _ _ (reachable_consistent _ _ R1) Q1) as H1.
  pose proof (quiescent_returned _ _ (reachable_consistent _ _ R2) Q2) as H2.
  destruct c1 as [s1 r1], c2 as [s2 r2]; simpl in *. congruence.
Qed.

(** With at least one awaited place, at most one reaction is ever ready. *)
Lemma step_det N c a b :
  consistent (S N) c →
  step promiseList (S N) abortOnFail c a →
  step promiseList (S N) abortOnFail c b →
  a = b.
Proof.
  intros [P _] Sa Sb.
  assert (∀ l st' c', settle_job promiseList abortOnFail l (shared c) = Some st' →
                      settle_returned promiseList (S N) c = Some c' → False) as X.
  { intros l st' c' H1 H2.
    apply settle_returned_Some in H2 as (_ & _ & H2 & H3).
    rewrite awaited_S, (settle_job_pending _ _ _ P H1) in H2. done. }
  destruct Sa as [l c st1 H1|c c1 H1]; destruct Sb as [l' c st2 H2|c c2 H2].
  - by rewrite (settle_job_det _ _ _ _ _ P H1 H2).
  - exfalso; by eapply X.
  - exfalso; by eapply X.
  - congruence.
Qed.

(** *** Facts read off the shape *)

Lemma step_phase N c c' :
  phase (shared c) → step promiseList N abortOnFail c c' → phase (shared c').
Proof.
  intros P S. destruct S as [l c st' H|c c' H]; simpl.
  - by eapply settle_job_phase.
  - apply settle_returned_Some in H as (_ & -> & _). done.
Qed.

Lemma phase_base st : phase st → ∃ m c, base m c st ∧ c ≤ n.
Proof.
  intros [i j B Hjob _ _ _ _|B _ _ _|i j s r B _ Hjob _ _ _ _ _ _ _].
  - exists i, (S i). split; [done|]. apply lookup_lt_Some in Hjob. done.
  - exists n, n. done.
  - exists (S i), (S i). split; [done|]. apply lookup_lt_Some in Hjob. done.
Qed.

Lemma phase_lanes st : phase st → length (lanes st) = 1.
Proof.
  intros [i j _ _ _ Hl _ _|_ Hl _ _|i j s r _ _ _ _ _ _ _ Hl _ _];
    by rewrite Hl.
Qed.

(** The only job awaited, if any, is the last one called, and every slot
    before it has been written. *)
Lemma phase_in_flight st :
  phase st →
  in_flight st = [] ∨
  ∃ i, in_flight st = [i] ∧ length (calls st) = S i ∧
       snapshot_ok i (resultList st).
Proof.
  intros [i j B _ _ Hl _ _|_ Hl _ _|i j s r _ _ _ _ _ _ _ Hl _ _];
    unfold in_flight; rewrite Hl; simpl; [|by left..].
  right. exists i. split_and!; [done|apply B|by eapply base_snapshot].
Qed.

Lemma indices_seq {A} (l : list (nat * A)) :
  (∀ k e, l !! k = Some e → e.1 = k) → l.*1 = seq 0 (length l).
Proof.
  intros H. apply list_eq. intros k.
  rewrite list_lookup_fmap.
  destruct (l !! k) as [e|] eqn:E; simpl.
  - rewrite (H _ _ E). symmetry. apply lookup_seq.
    split; [done|]. by eapply lookup_lt_Some.
  - symmetry. apply lookup_ge_None. rewrite length_seq.
    by apply lookup_ge_None.
Qed.

Lemma phase_calls st :
  phase st →
  (calls st).*1 = seq 0 (length (calls st)) ∧ length (calls st) ≤ n ∧
  ∀ k e, calls st !! k = Some e → e.1 = k ∧ snapshot_ok k e.2.
Proof.
  intros P. destruct (phase_base _ P) as (m & c & B & Hc).
  split_and!.
  - apply indices_seq. intros k e He. by apply (base_log _ _ _ B).
  - by rewrite (base_calls _ _ _ B).
  - apply B.
Qed.



Lemma phase_length st : phase st → length (resultList st) = n.
Proof. intros P. destruct (phase_base _ P) as (m & c & B & _). apply B. Qed.

Lemma phase_resolved st :
  phase st → promise_of st 0 = PResolved →
  hasAborted st = false ∧ length (calls st) = n ∧ ∀ i, i < n → recorded st i.
Proof.
  unfold promise_of.
  intros [i j _ _ _ Hl _ _|B Hl _ Ha|i j s r _ _ _ _ _ _ _ Hl _ _];
    rewrite Hl; simpl; try done.
  intros _. split_and!; [done|apply B|apply B].
Qed.


Lemma has_error_Failure i e : has_error (Failure i e) = negb (is_undefined e).
Proof. reflexivity. Qed.




End invariant.

(** ** More awaited places than jobs *)

Section saturation.

Context (promiseList : list job) (abortOnFail : bool).

Lemma awaited_saturated N st :
  phase promiseList abortOnFail st → totalJobs promiseList < N →
  awaited promiseList N st = awaited promiseList (totalJobs promiseList) st.
Proof.
  intros P HN. destruct N as [|N]; [lia|]. rewrite awaited_S.
  destruct (totalJobs promiseList) as [|m] eqn:E; [|by rewrite awaited_S].
  rewrite awaited_0. unfold promise_of.
  destruct P as [i j _ Hjob _ _ _ _|_ Hl _ _|i j s r _ _ Hjob _ _ _ _ _ _ _].
  - apply lookup_lt_Some in Hjob. change (i < totalJobs promiseList) in Hjob. lia.
  - by rewrite Hl.
  - apply lookup_lt_Some in Hjob. change (i < totalJobs promiseList) in Hjob. lia.
Qed.

Lemma settle_returned_saturated N c :
  phase promiseList abortOnFail (shared c) → totalJobs promiseList < N →
  settle_returned promiseList N c
  = settle_returned promiseList (totalJobs promiseList) c.
Proof.
  intros P HN. unfold settle_returned. by rewrite (awaited_saturated N).
Qed.

Lemma step_saturated N c c' :
  phase promiseList abortOnFail (shared c) → totalJobs promiseList < N →
  step promiseList N abortOnFail c c' ↔
  step promiseList (totalJobs promiseList) abortOnFail c c'.
Proof.
  intros P HN. split; intros S; destruct S as [l c st' H|c c' H].
  - by eapply step_job.
  - apply step_returned. by rewrite <- (settle_returned_saturated N).
  - by eapply step_job.
  - apply step_returned. by rewrite (settle_returned_saturated N).
Qed.

Lemma reachable_saturated N c :
  totalJobs promiseList < N →
  reachable promiseList N abortOnFail c ↔
  reachable promiseList (totalJobs promiseList) abortOnFail c.
Proof.
  intros HN. split; revert c.
  - apply rtc_ind_r; [apply rtc_refl|].
    intros c c' R S IH. eapply rtc_r; [exact IH|].
    apply (step_saturated N); [|done|done].
    by apply (reachable_consistent _ _ N).
  - apply rtc_ind_r; [apply rtc_refl|].
    intros c c' R S IH. eapply rtc_r; [exact IH|].
    apply (step_saturated N); [|done|done].
    by apply (reachable_consistent _ _ (totalJobs promiseList)).
Qed.

Lemma next_saturated N c :
  phase promiseList abortOnFail (shared c) → totalJobs promiseList < N →
  next promiseList N abortOnFail c
  = next promiseList (totalJobs promiseList) abortOnFail c.
Proof.
  intros P HN. unfold next. by rewrite (settle_returned_saturated N).
Qed.

Lemma exec_saturated N fuel c :
  phase promiseList abortOnFail (shared c) → totalJobs promiseList < N →
  exec promiseList N abortOnFail fuel c
  = exec promiseList (totalJobs promiseList) abortOnFail fuel c.
Proof.
  intros P HN. revert c P. induction fuel as [|fuel IH]; intros c P; simpl; [done|].
  rewrite (next_saturated N) by done.
  destruct (next promiseList (totalJobs promiseList) abortOnFail c) as [c'|] eqn:E;
    [|done].
  apply IH. eapply step_phase; [exact P|]. by apply next_step.
Qed.

End saturation.

(** ** What is recorded for well-behaved outcomes *)

Section recording.

Context (promiseList : list job) (abortOnFail : bool).

Lemma runNext_hasAborted l st :
  hasAborted (runNextPromise promiseList l st) = hasAborted st.
Proof.
  unfold runNextPromise, lane_settle, lane_wait, set_lane; simpl.
  repeat case_match; done.
Qed.

Lemma phase_not_aborted st :
  phase promiseList abortOnFail st → hasAborted st = false →
  ∀ r, promise_of st 0 ≠ PRejected r.
Proof.
  unfold promise_of.
  intros [i j _ _ _ Hl _ _|_ Hl _ _|i j s r' _ _ _ _ _ _ _ Hl _ Ha] Hf r;
    rewrite Hl; simpl; [done|done|congruence].
Qed.

Lemma phase_waiting st i :
  phase promiseList abortOnFail st → in_flight st = [i] →
  ∃ j, promiseList !! i = Some j ∧ hasAborted st = false ∧
       i < length (resultList st) ∧
       lanes st = [Lane PPending (Some (i, j (resultList st)))].
Proof.
  intros [i' j B Hjob _ Hl _ Ha|_ Hl _ _|i' j s r _ _ _ _ _ _ _ Hl _ _];
    unfold in_flight; rewrite Hl; simpl; [|done..].
  intros [= <-]. exists j. split_and!; try done.
  rewrite (base_length _ _ _ _ B). by eapply lookup_lt_Some.
Qed.

(** A job that fulfils with a value without a defined [error] property is
    recorded as [Success]; nothing is aborted or rejected. *)
Lemma clean_success_recorded st i j v :
  phase promiseList abortOnFail st → in_flight st = [i] →
  promiseList !! i = Some j → j (resultList st) = Fulfilled v →
  has_error v = false →
  ∃ st', settle_job promiseList abortOnFail 0 st = Some st' ∧
         resultList st' !! i = Some (Success i v) ∧
         hasAborted st' = false ∧
         ∀ r, promise_of st' 0 ≠ PRejected r.
Proof.
  intros P Hfl Hjob Hv He.
  destruct (phase_waiting _ _ P Hfl) as (j' & Hjob' & Ha & Hi & Hl).
  assert (j' = j) as -> by congruence.
  assert (settle_job promiseList abortOnFail 0 st
          = Some (runNextPromise promiseList 0
                    (write_slot i (Success i v)
                       (set_lane 0 (Lane PPending None) st)))) as Hs.
  { unfold settle_job. rewrite Hl; simpl. rewrite Hv; simpl.
    unfold on_result; simpl. by rewrite Ha, He. }
  eexists. split; [exact Hs|].
  pose proof (settle_job_phase _ _ _ _ _ P Hs) as P'.
  assert (hasAborted (runNextPromise promiseList 0
            (write_slot i (Success i v) (set_lane 0 (Lane PPending None) st)))
          = false) as Ha' by (by rewrite runNext_hasAborted).
  split_and!; [|done|by apply phase_not_aborted].
  rewrite runNext_resultList; simpl. unfold array_set.
  rewrite decide_True by done. by apply list_lookup_insert_eq.
Qed.

Lemma settle_job_error_abort ji rl i s cs result :
  abortOnFail = true →
  i < length rl → caught i s = Some result → has_error result = true →
  settle_job promiseList abortOnFail 0
    (State ji false rl [Lane PPending (Some (i, s))] cs)
  = Some (State ji true (<[i:=result]> rl)
            [Lane (PRejected (rejection result (<[i:=result]> rl))) None] cs).
Proof.
  intros Hab Hi Hc He. unfold settle_job; simpl. rewrite Hc.
  unfold on_result, write_slot, array_set; simpl.
  by rewrite Hab, He, decide_True.
Qed.

Lemma settle_job_error_continue ji rl i s cs result :
  abortOnFail = false →
  i < length rl → caught i s = Some result → has_error result = true →
  settle_job promiseList abortOnFail 0
    (State ji false rl [Lane PPending (Some (i, s))] cs)
  = Some (runNextPromise promiseList 0
            (State ji false (<[i:=result]> rl) [Lane PPending None] cs)).
Proof.
  intros Hab Hi Hc He. unfold settle_job; simpl. rewrite Hc.
  unfold on_result, write_slot, array_set; simpl.
  by rewrite Hab, He, decide_True.
Qed.

(** A job that rejects with a reason other than [undefined] is recorded as
    [Failure]; under [abortOnFail] the flag is set and the lane rejects with
    the index, the reason and a copy of the list. *)
Lemma real_failure_recorded st i j e :
  phase promiseList abortOnFail st → in_flight st = [i] →
  promiseList !! i = Some j → j (resultList st) = Rejected e →
  e ≠ VUndefined →
  ∃ st', settle_job promiseList abortOnFail 0 st = Some st' ∧
         resultList st' = <[i := Failure i e]> (resultList st) ∧
         resultList st' !! i = Some (Failure i e) ∧
         (abortOnFail = true →
          hasAborted st' = true ∧
          promise_of st' 0
          = PRejected (VObj [("promiseIndex", VNum (Z.of_nat i)); ("error", e);
                             ("resultList", VArr (resultList st'))])) ∧
         (abortOnFail = false →
          hasAborted st' = false ∧ ∀ r, promise_of st' 0 ≠ PRejected r).
Proof.
  intros P Hfl Hjob Hv He.
  destruct (phase_waiting _ _ P Hfl) as (j' & Hjob' & Ha & Hi & Hl).
  assert (j' = j) as -> by congruence.
  assert (has_error (Failure i e) = true) as Herr
    by (rewrite has_error_Failure; destruct e; done).
  assert (caught i (j (resultList st)) = Some (Failure i e)) as Hc
    by (by rewrite Hv).
  destruct st as [ji ha rl ls cs]; simpl in *; subst.
  destruct (decide (abortOnFail = true)) as [Hab|Hab].
  - eexists. split; [by apply settle_job_error_abort|]. simpl.
    split_and!; try done; [by apply list_lookup_insert_eq|congruence].
  - apply not_true_is_false in Hab.
    pose proof (settle_job_error_continue ji _ _ _ cs _ Hab Hi Hc Herr) as Hs.
    pose proof (settle_job_phase _ _ _ _ _ P Hs) as P'.
    eexists. split; [exact Hs|].
    rewrite runNext_resultList; simpl.
    split_and!; try done.
    + by apply list_lookup_insert_eq.
    + congruence.
    + intros _. rewrite runNext_hasAborted; simpl. split; [done|].
      apply (phase_not_aborted _ P'). by rewrite runNext_hasAborted.
Qed.

(** Without [abortOnFail] and with jobs that settle, the returned promise is
    never rejected, every job is called once, in order, and the run ends
    resolved with every slot written from its own job. *)
Lemma collects_everything N :
  1 ≤ N → abortOnFail = false → Forall settles promiseList →
  (∀ c r, reachable promiseList N abortOnFail c → returned c ≠ PRejected r) ∧
  returned (run promiseList N abortOnFail) = PResolved ∧
  (calls (shared (run promiseList N abortOnFail))).*1
  = seq 0 (totalJobs promiseList) ∧
  length (resultList (shared (run promiseList N abortOnFail)))
  = totalJobs promiseList ∧
  ∀ i, i < totalJobs promiseList →
       recorded promiseList (shared (run promiseList N abortOnFail)) i.
Proof.
  intros HN Hab Hset. destruct N as [|N]; [lia|].
  assert (∀ st, phase promiseList abortOnFail st →
                ∀ r, promise_of st 0 ≠ PRejected r) as Hnr.
  { intros st P r. apply phase_not_aborted; [done|].
    destruct P as [i j _ _ _ _ _ Ha|_ _ _ Ha|i j s r' _ Hab' _ _ _ _ _ _ _ _];
      [done|done|congruence]. }
  split.
  { intros c r R. destruct (reachable_consistent _ _ _ _ R) as [P [->|[_ ->]]];
      [done|]. rewrite awaited_S. by apply Hnr. }
  pose proof (run_reachable promiseList abortOnFail (S N)) as R.
  pose proof (run_quiescent promiseList abortOnFail (S N)) as Q.
  pose proof (reachable_consistent _ _ _ _ R) as C.
  pose proof (quiescent_returned _ _ _ _ C Q) as Hret.
  rewrite awaited_S in Hret. destruct C as [P _].
  assert (promise_of (shared (run promiseList (S N) abortOnFail)) 0 = PResolved)
    as Hres.
  { pose proof (Hnr _ P) as Hnr'. unfold promise_of in *.
    destruct P as [i j _ Hjob _ Hl _ _|_ Hl _ _|i j s r' _ _ _ _ _ _ _ Hl _ _];
      rewrite Hl in *; simpl in *; [|done|exfalso; by eapply Hnr'].
    exfalso.
    destruct (j (resultList (shared (run promiseList (S N) abortOnFail))))
      as [v|e|] eqn:Ej.
    - eapply Q. eapply (step_job _ _ _ 0). unfold settle_job.
      rewrite Hl; simpl. done.
    - eapply Q. eapply (step_job _ _ _ 0). unfold settle_job.
      rewrite Hl; simpl. done.
    - rewrite Forall_forall in Hset. eapply Hset; [|exact Ej].
      by eapply list_elem_of_lookup_2. }
  destruct (phase_resolved _ _ _ P Hres) as (_ & Hlen & Hrec).
  pose proof (phase_calls _ _ _ P) as (Hseq & _ & _).
  split_and!.
  - by rewrite Hret.
  - by rewrite Hseq, Hlen.
  - by eapply phase_length.
  - done.
Qed.

(** Under [abortOnFail], a rejection of the returned promise carries what
    the job at the cursor produced, spread over a copy of the list in which
    the slots up to that job are written and the later ones empty. *)
Lemma rejection_payload N c r :
  reachable promiseList N abortOnFail c → returned c = PRejected r →
  ∃ i j snapshot result,
    abortOnFail = true ∧ jobIndex (shared c) = Z.of_nat i ∧
    promiseList !! i = Some j ∧
    calls (shared c) !! i = Some (i, snapshot) ∧
    caught i (j snapshot) = Some result ∧ has_error result = true ∧
    r = rejection result (resultList (shared c)) ∧
    resultList (shared c) !! i = Some result ∧
    (∀ k, k < i → recorded promiseList (shared c) k) ∧
    (∀ k, i < k → k < totalJobs promiseList →
          resultList (shared c) !! k = Some Empty).
Proof.
  intros R Hr. destruct (reachable_consistent _ _ _ _ R) as [P [C|[_ C]]];
    [congruence|].
  rewrite Hr in C. destruct N as [|N]; [done|]. rewrite awaited_S in C.
  unfold promise_of in C.
  destruct P as [i j _ _ _ Hl _ _|_ Hl _ _|i j s r' B Hab Hjob Hcall Hres He Hslot Hl Hj _];
    rewrite Hl in C; simpl in C; [done|done|].
  injection C as ->. exists i, j, s, r'. split_and!; try done.
  - intros k Hk. apply (base_done _ _ _ _ B). lia.
  - intros k Hk1 Hk2. apply (base_todo _ _ _ _ B); [lia|done].
Qed.

End recording.

(** Under [abortOnFail], when the rejection comes from a job that rejected,
    it carries that job's index, its reason, and the copy of the list. *)
Lemma rejection_of_failed_job (promiseList : list job) (N : nat) (c : config)
    (r : value) :
  reachable promiseList N true c → returned c = PRejected r →
  ∃ i j snapshot,
    promiseList !! i = Some j ∧
    calls (shared c) !! i = Some (i, snapshot) ∧
    (∀ e, j snapshot = Rejected e →
          r = VObj [("promiseIndex", VNum (Z.of_nat i)); ("error", e);
                    ("resultList", VArr (resultList (shared c)))] ∧
          resultList (shared c) !! i = Some (Failure i e)) ∧
    (∀ k, i < k → k < totalJobs promiseList →
          resultList (shared c) !! k = Some Empty).
Proof.
  intros R Hr.
  destruct (rejection_payload _ _ _ _ _ R Hr)
    as (i & j & s & result & _ & _ & Hjob & Hcall & Hres & _ & -> & Hslot & _ & Hrest).
  exists i, j, s. split_and!; try done.
  intros e He. rewrite He in Hres. injection Hres as <-. done.
Qed.

(** ** The properties of [runSequentialPromises] *)

Lemma array_length_ok_lt (len : nat) :
  (Z.of_nat len < 2 ^ 32)%Z → array_length_ok len = true.
Proof. intros H. unfold array_length_ok. by apply Z.ltb_lt. Qed.

Lemma call_returns (promiseList : list job) (N : nat) (abortOnFail : bool) :
  (Z.of_nat (length promiseList) < 2 ^ 32)%Z → (Z.of_nat N < 2 ^ 32)%Z →
  call promiseList N abortOnFail
  = Returns (runSequentialPromises promiseList N abortOnFail).
Proof.
  intros Hl HN. unfold call. by rewrite !array_length_ok_lt.
Qed.

Lemma saturated_outcome (promiseList : list job) (N : nat)
    (abortOnFail : bool) :
  length promiseList < N →
  runSequentialPromises promiseList N abortOnFail
  = runSequentialPromises promiseList (length promiseList) abortOnFail.
Proof.
  intros HN. unfold runSequentialPromises, run. f_equal.
  apply exec_saturated; [apply start_phase|done].
Qed.

(** C7 (lane saturation), as amended.  For every job list and every
    [threadsNumber] greater than the number of jobs and below 2^32, the call
    returns a promise with the same observable result (the same resolution
    value or the same rejection payload) as the call with [threadsNumber]
    equal to the number of jobs; the two calls even go through the same
    configurations. *)
Theorem lane_saturation (promiseList : list job) (N : nat) (abortOnFail : bool) :
  length promiseList < N → (Z.of_nat N < 2 ^ 32)%Z →
  call promiseList N abortOnFail
  = call promiseList (length promiseList) abortOnFail ∧
  call promiseList N abortOnFail
  = Returns (runSequentialPromises promiseList (length promiseList)
               abortOnFail) ∧
  ∀ c, reachable promiseList N abortOnFail c ↔
       reachable promiseList (length promiseList) abortOnFail c.
Proof.
  intros HN Hmax.
  assert (Z.of_nat (length promiseList) < 2 ^ 32)%Z as Hl by lia.
  split_and!.
  - rewrite !call_returns by done. f_equal. by apply saturated_outcome.
  - rewrite call_returns by done. f_equal. by apply saturated_outcome.
  - intros c. by apply reachable_saturated.
Qed.

Lemma lane_saturation_witness :
  length [resolves_with (VStr "A"); rejects_with (VStr "no"); echo] < 5 ∧
  (Z.of_nat 5 < 2 ^ 32)%Z ∧
  call [resolves_with (VStr "A"); rejects_with (VStr "no"); echo] 5 true
  = call [resolves_with (VStr "A"); rejects_with (VStr "no"); echo] 3 true.
Proof.
  split; [simpl; lia|]. split; [lia|].
  apply (lane_saturation
           [resolves_with (VStr "A"); rejects_with (VStr "no"); echo] 5 true);
    [simpl; lia|lia].
Defined.

(** C7 as stated fails: [threadsNumber = 2^32] is greater than the number
    of jobs of the empty list, but [Array(threadsNumber)] throws a
    [RangeError], while the call with [threadsNumber] equal to the number
    of jobs resolves with the empty list. *)
Lemma lane_saturation_fails_at_array_limit :
  length ([] : list job) < Z.to_nat (2 ^ 32) ∧
  call [] (Z.to_nat (2 ^ 32)) true = ThrowsRangeError ∧
  call [] (length ([] : list job)) true = Returns (Resolves []).
Proof.
  split_and!.
  - change (0 < Z.to_nat (2 ^ 32)). lia.
  - unfold call, array_length_ok. rewrite Z2Nat.id by lia. reflexivity.
  - reflexivity.
Qed.

(** C8 (implicit).  In every configuration a run can reach, for every
    [threadsNumber], there is one lane and at most one job in flight; a job
    in flight is the last one called and every slot before its index is
    already written; jobs are called in the order 0, 1, 2, ...; and the
    snapshot passed to job [i] has every slot below [i] non-empty and every
    slot from [i] on empty. *)
Theorem jobs_run_one_at_a_time (promiseList : list job) (threadsNumber : nat)
    (abortOnFail : bool) (c : config) :
  reachable promiseList threadsNumber abortOnFail c →
  length (lanes (shared c)) = 1 ∧
  length (in_flight (shared c)) ≤ 1 ∧
  (∀ i, i ∈ in_flight (shared c) →
     length (calls (shared c)) = S i ∧
     ∀ k, k < i → ∃ v, resultList (shared c) !! k = Some v ∧ v ≠ Empty) ∧
  (calls (shared c)).*1 = seq 0 (length (calls (shared c))) ∧
  ∀ i snapshot, (i, snapshot) ∈ calls (shared c) →
    length snapshot = totalJobs promiseList ∧
    (∀ k, k < i → ∃ v, snapshot !! k = Some v ∧ v ≠ Empty) ∧
    (∀ k, i ≤ k → k < totalJobs promiseList → snapshot !! k = Some Empty).
Proof.
  intros R. destruct (reachable_consistent _ _ _ _ R) as [P _].
  pose proof (phase_in_flight _ _ _ P) as F.
  pose proof (phase_calls _ _ _ P) as (Hseq & _ & Hlog).
  split_and!.
  - by eapply phase_lanes.
  - destruct F as [->|(i & -> & _)]; simpl; lia.
  - intros i Hi. destruct F as [F|(i' & F & Hlen & Hsnap)];
      rewrite F in Hi; [by apply elem_of_nil in Hi|].
    apply list_elem_of_singleton in Hi as ->. split; [done|]. apply Hsnap.
  - done.
  - intros i snapshot Hin. apply list_elem_of_lookup in Hin as [k Hk].
    destruct (Hlog _ _ Hk) as [Hi Hs]. simpl in *. subst k.
    split_and!; apply Hs.
Qed.

Lemma jobs_run_one_at_a_time_witness :
  reachable [resolves_with VNull; hangs; echo] 2 false
    (run [resolves_with VNull; hangs; echo] 2 false) ∧
  length (in_flight (shared (run [resolves_with VNull; hangs; echo] 2 false))) ≤ 1.
Proof.
  split; [apply run_reachable|].
  apply (jobs_run_one_at_a_time [resolves_with VNull; hangs; echo] 2 false).
  apply run_reachable.
Defined.

(** C9 (implicit).  The run is deterministic: jobs being functions from
    their snapshot to the way their promise settles, every complete
    execution from the same options and jobs ends in the same
    configuration, the one [run] computes, so any two invocations have the
    same outcome; and with [threadsNumber >= 1] no configuration has more
    than one successor, so there is no scheduling choice at all. *)
Theorem run_is_deterministic (promiseList : list job) (threadsNumber : nat)
    (abortOnFail : bool) :
  reachable promiseList threadsNumber abortOnFail
    (run promiseList threadsNumber abortOnFail) ∧
  quiescent promiseList threadsNumber abortOnFail
    (run promiseList threadsNumber abortOnFail) ∧
  (∀ c, reachable promiseList threadsNumber abortOnFail c →
        quiescent promiseList threadsNumber abortOnFail c →
        c = run promiseList threadsNumber abortOnFail ∧
        observe c = runSequentialPromises promiseList threadsNumber abortOnFail) ∧
  (1 ≤ threadsNumber →
   ∀ c a b, reachable promiseList threadsNumber abortOnFail c →
            step promiseList threadsNumber abortOnFail c a →
            step promiseList threadsNumber abortOnFail c b →
            a = b).
Proof.
  split_and!.
  - apply run_reachable.
  - apply run_quiescent.
  - intros c R Q.
    assert (c = run promiseList threadsNumber abortOnFail) as ->; [|done].
    apply (quiescent_unique promiseList abortOnFail threadsNumber);
      [done|apply run_reachable|done|apply run_quiescent].
  - intros HN c a b R Sa Sb. destruct threadsNumber as [|N]; [lia|].
    eapply step_det; [|exact Sa|exact Sb]. by apply reachable_consistent.
Qed.

Lemma run_is_deterministic_witness :
  observe (run [rejects_with VNull; echo] 3 true)
  = runSequentialPromises [rejects_with VNull; echo] 3 true.
Proof.
  destruct (run_is_deterministic [rejects_with VNull; echo] 3 true)
    as (R & Q & U & _).
  apply (U _ R Q).
Defined.

(** C10 (implicit).  With [threadsNumber = 0] one lane is created all the
    same: it claims index 0 and calls the first job.  Its promise is not
    among those awaited (nothing is), so the returned promise is ready to
    resolve at once, while that job is still in flight, and the list it
    resolves with then has every slot empty. *)
Theorem zero_threads_resolve_early (promiseList : list job) (abortOnFail : bool) :
  promiseList ≠ [] →
  threads promiseList 0 = [] ∧
  length (lanes (shared (start promiseList))) = 1 ∧
  in_flight (shared (start promiseList)) = [0] ∧
  calls (shared (start promiseList))
  = [(0, replicate (totalJobs promiseList) Empty)] ∧
  ∃ c, next promiseList 0 abortOnFail (start promiseList) = Some c ∧
       step promiseList 0 abortOnFail (start promiseList) c ∧
       in_flight (shared c) = [0] ∧
       observe c = Resolves (replicate (totalJobs promiseList) Empty).
Proof.
  intros Hne. destruct promiseList as [|j rest]; [done|].
  split_and!; try reflexivity.
  eexists. split; [reflexivity|]. split_and!; try reflexivity.
  apply step_returned. reflexivity.
Qed.

Lemma zero_threads_resolve_early_witness :
  [resolves_with (VNum 1); echo] ≠ [] ∧
  observe (Config (shared (start [resolves_with (VNum 1); echo])) PResolved)
  = Resolves [Empty; Empty].
Proof.
  split; [done|].
  destruct (zero_threads_resolve_early [resolves_with (VNum 1); echo] true)
    as (_ & _ & _ & _ & c & Hc & _ & _ & Ho); [done|].
  injection Hc as <-. exact Ho.
Defined.





(** ** Where the code departs from its description *)

(** C1.  With [threadsNumber = 2] and two jobs one lane is started, not
    two: both awaited places hold the same promise, and only job 0 is called
    at the start.  If its promise never settles nothing else ever runs; if
    it does, job 1 is called afterwards, with a snapshot that already holds
    the slot of job 0.  With one job and [threadsNumber = 3] the cursor ends
    at 1: a single out-of-range claim was made. *)
Example two_threads_start_one_lane :
  threads [hangs; resolves_with (VNum 1)] 2 = [0; 0] ∧
  length (lanes (shared (start [hangs; resolves_with (VNum 1)]))) = 1 ∧
  in_flight (shared (start [hangs; resolves_with (VNum 1)])) = [0] ∧
  next [hangs; resolves_with (VNum 1)] 2 true
    (start [hangs; resolves_with (VNum 1)]) = None ∧
  calls (shared (run [hangs; resolves_with (VNum 1)] 2 true))
  = [(0, [Empty; Empty])] ∧
  calls (shared (run [resolves_with (VNum 0); resolves_with (VNum 1)] 2 true))
  = [(0, [Empty; Empty]); (1, [Success 0 (VNum 0); Empty])] ∧
  jobIndex (shared (run [resolves_with (VNum 0)] 3 true)) = 1%Z.
Proof. split_and!; reflexivity. Qed.

(** C2.  A job that fulfils with an object that has an [error] property is
    taken for a failed one: its slot holds the bare value instead of
    [Success], the abort flag is set and the returned promise rejects. *)
Example error_property_taken_for_failure :
  runSequentialPromises [resolves_with (VObj [("error", VStr "x")])] 1 true
  = Rejects (VObj [("error", VStr "x");
                   ("resultList", VArr [VObj [("error", VStr "x")]])]) ∧
  hasAborted (shared (run [resolves_with (VObj [("error", VStr "x")])] 1 true))
  = true ∧
  resultList (shared (run [resolves_with (VObj [("error", VStr "x")])] 1 true))
  = [VObj [("error", VStr "x")]] ∧
  VObj [("error", VStr "x")] ≠ Success 0 (VObj [("error", VStr "x")]).
Proof. split_and!; try reflexivity. discriminate. Qed.

(** C3.  A job that rejects with [undefined] is taken for a successful one:
    its slot is a [Success] wrapping the caught object, the abort flag stays
    unset under [abortOnFail] and the returned promise resolves. *)
Example undefined_reason_taken_for_success :
  runSequentialPromises [rejects_with VUndefined] 1 true
  = Resolves [Success 0 (Failure 0 VUndefined)] ∧
  hasAborted (shared (run [rejects_with VUndefined] 1 true)) = false ∧
  Success 0 (Failure 0 VUndefined) ≠ Failure 0 VUndefined.
Proof. split_and!; try reflexivity. discriminate. Qed.

(** C4.  Without [abortOnFail] the list the run resolves with can hold a
    slot that is neither [Success] nor [Failure]: the bare value of a job
    that fulfilled with an object having an [error] property. *)
Example bare_value_in_resolved_list :
  runSequentialPromises
    [resolves_with (VObj [("error", VStr "x")]); resolves_with (VNum 1)] 1 false
  = Resolves [VObj [("error", VStr "x")]; Success 1 (VNum 1)] ∧
  ¬ is_Success 0 (VObj [("error", VStr "x")]) ∧
  ¬ is_Failure 0 (VObj [("error", VStr "x")]).
Proof.
  split_and!; [reflexivity|intros [d H]; discriminate H|
               intros [e H]; discriminate H].
Qed.

(** C5.  Under [abortOnFail] a run in which a job fails can resolve: job 1
    rejects with [undefined], is recorded as a [Success], and the run goes
    on to job 2.  And a rejection can come from a job that did not fail and
    carry no index: job 0 here fulfils, job 1, which would reject, is never
    called. *)
Example failed_job_does_not_reject_the_run :
  runSequentialPromises
    [resolves_with (VNum 1); rejects_with VUndefined; resolves_with (VNum 3)]
    1 true
  = Resolves [Success 0 (VNum 1); Success 1 (Failure 1 VUndefined);
              Success 2 (VNum 3)] ∧
  runSequentialPromises
    [resolves_with (VObj [("error", VStr "x")]); rejects_with (VStr "no")] 1 true
  = Rejects (VObj [("error", VStr "x");
                   ("resultList", VArr [VObj [("error", VStr "x")]; Empty])]).
Proof. split; reflexivity. Qed.

(** ** The run as a sequential loop *)

Section sequential.

Context (promiseList : list job).

(** [runNextPromise] from a lane that has just recorded job [m - 1]. *)
Lemma runNext_explicit m rl cs :
  runNextPromise promiseList 0
    (State (Z.of_nat m - 1) false rl [Lane PPending None] cs)
  = match promiseList !! m with
    | Some j =>
        State (Z.of_nat m) false rl [Lane PPending (Some (m, j rl))]
              (cs ++ [(m, rl)])
    | None => State (Z.of_nat m) false rl [Lane PResolved None] cs
    end.
Proof.
  unfold runNextPromise; simpl.
  replace (Z.of_nat m - 1 + 1)%Z with (Z.of_nat m) by lia.
  destruct (promiseList !! m) as [j|] eqn:E.
  - pose proof (lookup_lt_Some _ _ _ E) as Hm.
    change (m < totalJobs promiseList) in Hm.
    destruct (Z.leb_spec (Z.of_nat (totalJobs promiseList)) (Z.of_nat m));
      [lia|].
    unfold lookupZ. destruct (Z.ltb_spec (Z.of_nat m) 0); [lia|].
    rewrite Nat2Z.id.
    match goal with
    | |- match ?t with _ => _ end = _ =>
        replace t with (Some j) by (symmetry; exact E)
    end.
    done.
  - apply lookup_ge_None in E. change (totalJobs promiseList ≤ m) in E.
    destruct (Z.leb_spec (Z.of_nat (totalJobs promiseList)) (Z.of_nat m));
      [done|lia].
Qed.

(** Once the returned promise is settled and the lane idle, the scheduler
    has nothing to do. *)
Lemma exec_settled abortOnFail N fuel st p :
  returned (Config st p) ≠ PPending → lanes st = [Lane (promise_of st 0) None] →
  exec promiseList N abortOnFail fuel (Config st p) = Config st p.
Proof.
  intros Hp Hl. destruct fuel as [|fuel]; [done|]. simpl.
  assert (next promiseList N abortOnFail (Config st p) = None) as ->; [|done].
  unfold next, settle_returned; simpl in *.
  destruct p; [done|..]; rewrite Hl; simpl; unfold settle_job;
    rewrite Hl; done.
Qed.

(** The scheduler's turn while the lane promise is pending, and once it is
    settled. *)
Lemma next_lane_pending abortOnFail N st ln :
  lanes st = [ln] → lane_promise ln = PPending →
  next promiseList (S N) abortOnFail (Config st PPending)
  = (λ st', Config st' PPending) <$> settle_job promiseList abortOnFail 0 st.
Proof.
  intros Hl Hp. unfold next, settle_returned. cbn [returned shared].
  rewrite awaited_S. unfold promise_of. rewrite Hl. cbn [lookup list_lookup].
  rewrite Hp. cbn [length seq first_job].
  by destruct (settle_job promiseList abortOnFail 0 st).
Qed.

Lemma next_lane_settled abortOnFail N st ln :
  lanes st = [ln] → lane_promise ln ≠ PPending →
  next promiseList (S N) abortOnFail (Config st PPending)
  = Some (Config st (lane_promise ln)).
Proof.
  intros Hl Hp. unfold next, settle_returned. cbn [returned shared].
  rewrite awaited_S. unfold promise_of. rewrite Hl. cbn [lookup list_lookup].
  by destruct (lane_promise ln).
Qed.

Lemma exec_sequential abortOnFail N fuel m rl cs :
  length rl = totalJobs promiseList → m ≤ totalJobs promiseList →
  totalJobs promiseList - m + 1 ≤ fuel →
  observe (exec promiseList (S N) abortOnFail fuel
             (Config (runNextPromise promiseList 0
                        (State (Z.of_nat m - 1) false rl
                               [Lane PPending None] cs)) PPending))
  = sequential_loop abortOnFail m (drop m promiseList) rl.
Proof.
  revert m rl cs. induction fuel as [|fuel IH]; intros m rl cs Hlen Hm Hfuel;
    [lia|].
  rewrite runNext_explicit.
  destruct (promiseList !! m) as [j|] eqn:E.
  - pose proof (lookup_lt_Some _ _ _ E) as Hlt.
    change (m < totalJobs promiseList) in Hlt.
    rewrite (drop_S (A:=job) promiseList j m E).
    cbn [exec sequential_loop].
    erewrite next_lane_pending; [|reflexivity|reflexivity].
    unfold settle_job. cbn [lanes lookup list_lookup].
    destruct (caught m (j rl)) as [result|] eqn:Hc; [|done].
    cbn [fmap option_fmap option_map].
    unfold on_result, write_slot, set_lane, array_set, slot_for.
    cbn [hasAborted resultList jobIndex lanes calls].
    rewrite !decide_True by lia.
    destruct (has_error result) eqn:He; cbn [andb].
    + destruct abortOnFail.
      * destruct fuel as [|fuel]; [lia|].
        unfold lane_settle, set_aborted, set_lane.
        cbn [hasAborted resultList jobIndex lanes calls lookup list_lookup
             insert list_insert lane_promise lane_job settle exec].
        erewrite next_lane_settled; [|reflexivity|done].
        by rewrite exec_settled.
      * replace (Z.of_nat m) with (Z.of_nat (S m) - 1)%Z by lia.
        apply IH; [by rewrite length_insert|lia|lia].
    + replace (Z.of_nat m) with (Z.of_nat (S m) - 1)%Z by lia.
      apply IH; [by rewrite length_insert|lia|lia].
  - apply lookup_ge_None in E. rewrite (drop_ge (A:=job)) by done.
    cbn [exec sequential_loop].
    erewrite next_lane_settled; [|reflexivity|done].
    by rewrite exec_settled.
Qed.

End sequential.

(** *** What the loop gives for well-behaved jobs *)

Lemma take_agree {A} (l1 l2 : list A) (i : nat) :
  (∀ k, k < i → l1 !! k = l2 !! k) → take i l1 = take i l2.
Proof.
  intros H. apply list_eq. intros k. rewrite !lookup_take.
  case_decide; auto.
Qed.

(** Every job is given the final list below its index and the initial one
    from there on, and its value is what its slot holds. *)
Lemma loop_clean (ab : bool) (i : nat) (jobs : list job) (rl : list value) :
  Forall fulfils_cleanly jobs → i + length jobs ≤ length rl →
  ∃ rl', sequential_loop ab i jobs rl = Resolves rl' ∧
         length rl' = length rl ∧
         (∀ k, k < i ∨ i + length jobs ≤ k → rl' !! k = rl !! k) ∧
         (∀ m j, jobs !! m = Some j →
            ∃ d, j (take (i + m) rl' ++ drop (i + m) rl)%list = Fulfilled d ∧
                 rl' !! (i + m) = Some (Success (i + m) d)).
Proof.
  revert i rl. induction jobs as [|j rest IH]; intros i rl HF Hlen; simpl in *.
  - exists rl. split_and!; try done.
  - apply Forall_cons in HF as [Hj Hrest].
    destruct (Hj rl) as (v & Hjv & Hv). rewrite Hjv. simpl.
    unfold slot_for. rewrite Hv. simpl.
    destruct (IH (S i) (<[i:=Success i v]> rl)) as (rl' & Heq & Hl & Hout & Hin);
      [done|rewrite length_insert; lia|].
    exists rl'. split_and!.
    + done.
    + by rewrite Hl, length_insert.
    + intros k Hk. rewrite Hout by lia. apply list_lookup_insert_ne. lia.
    + intros [|m] j0 Hm; simpl in Hm.
      * injection Hm as <-. exists v. rewrite Nat.add_0_r. split.
        -- rewrite (take_agree rl' rl i), take_drop; [done|].
           intros k Hk. rewrite Hout by lia.
           apply list_lookup_insert_ne. lia.
        -- rewrite Hout by lia. apply list_lookup_insert_eq. lia.
      * destruct (Hin m j0 Hm) as (d & Hd & Hs). exists d.
        replace (i + S m) with (S i + m) by lia. split; [|done].
        rewrite <- Hd. do 2 f_equal. symmetry. apply drop_insert_lt. lia.
Qed.

Lemma loop_abort (i : nat) (pre : list job) (j : job) (rest : list job)
    (rl : list value) :
  Forall fulfils_cleanly pre → rejects_really j → i + length pre < length rl →
  ∃ e rl',
    sequential_loop true i (pre ++ j :: rest) rl
    = Rejects (VObj [("promiseIndex", VNum (Z.of_nat (i + length pre)));
                     ("error", e); ("resultList", VArr rl')]) ∧
    j (take (i + length pre) rl' ++ drop (i + length pre) rl)%list = Rejected e ∧
    e ≠ VUndefined ∧
    length rl' = length rl ∧
    rl' !! (i + length pre) = Some (Failure (i + length pre) e) ∧
    (∀ m p, pre !! m = Some p →
       ∃ d, p (take (i + m) rl' ++ drop (i + m) rl)%list = Fulfilled d ∧
            rl' !! (i + m) = Some (Success (i + m) d)) ∧
    (∀ k, k < i ∨ i + length pre < k → rl' !! k = rl !! k).
Proof.
  revert i rl. induction pre as [|p pre IH]; intros i rl HF Hj Hlen;
    simpl in *.
  - destruct (Hj rl) as (e & Hje & He). rewrite Hje. simpl.
    assert (has_error (Failure i e) = true) as Herr
      by (destruct e; done).
    unfold slot_for. rewrite Herr. simpl.
    exists e, (<[i:=Failure i e]> rl). rewrite Nat.add_0_r.
    split_and!; try done.
    + rewrite take_insert_ge, take_drop by lia. done.
    + by rewrite length_insert.
    + apply list_lookup_insert_eq. lia.
    + intros k Hk. apply list_lookup_insert_ne. lia.
  - apply Forall_cons in HF as [Hp Hpre].
    destruct (Hp rl) as (v & Hpv & Hv). rewrite Hpv. simpl.
    unfold slot_for. rewrite Hv. simpl.
    destruct (IH (S i) (<[i:=Success i v]> rl))
      as (e & rl' & Heq & Hje & He & Hl & Hk & Hin & Hout);
      [done|done|rewrite length_insert; lia|].
    replace (S i + length pre) with (i + S (length pre)) in * by lia.
    exists e, rl'. split_and!; try done.
    + rewrite <- Hje. do 2 f_equal. symmetry. apply drop_insert_lt. lia.
    + by rewrite Hl, length_insert.
    + intros [|m] p0 Hm; simpl in Hm.
      * injection Hm as <-. exists v. rewrite Nat.add_0_r. split.
        -- rewrite (take_agree rl' rl i), take_drop; [done|].
           intros k Hk'. rewrite Hout by lia.
           apply list_lookup_insert_ne. lia.
        -- rewrite Hout by lia. apply list_lookup_insert_eq. lia.
      * destruct (Hin m p0 Hm) as (d & Hd & Hs). exists d.
        replace (i + S m) with (S i + m) by lia. split; [|done].
        rewrite <- Hd. do 2 f_equal. symmetry. apply drop_insert_lt. lia.
    + intros k Hk'. rewrite Hout by lia. apply list_lookup_insert_ne. lia.
Qed.

(** *** Shapes in which no job reaction is ready *)

Lemma phase_aborted_idle (promiseList : list job) (abortOnFail : bool)
    (st : state) :
  phase promiseList abortOnFail st → hasAborted st = true →
  abortOnFail = true ∧ (∃ r, promise_of st 0 = PRejected r) ∧
  in_flight st = [] ∧
  ∀ l, settle_job promiseList abortOnFail l st = None.
Proof.
  unfold promise_of, in_flight, settle_job.
  intros [i j _ _ _ Hl _ Ha|_ Hl _ Ha|i j s r _ Hab _ _ _ _ _ Hl _ _] Ht;
    [congruence|congruence|].
  rewrite Hl. split_and!; [done|by eexists|done|].
  by intros [|[|l]].
Qed.

Lemma phase_settled_idle (promiseList : list job) (abortOnFail : bool)
    (st : state) :
  phase promiseList abortOnFail st → promise_of st 0 ≠ PPending →
  ∀ l, settle_job promiseList abortOnFail l st = None.
Proof.
  intros P Hp l.
  destruct (settle_job promiseList abortOnFail l st) as [st'|] eqn:E; [|done].
  by rewrite (settle_job_pending _ _ _ _ _ P E) in Hp.
Qed.

Lemma next_threads_irrelevant (promiseList : list job) (abortOnFail : bool)
    (N M : nat) (c : config) :
  next promiseList (S N) abortOnFail c = next promiseList (S M) abortOnFail c.
Proof. unfold next, settle_returned. by rewrite !awaited_S. Qed.

Lemma exec_threads_irrelevant (promiseList : list job) (abortOnFail : bool)
    (N M : nat) (fuel : nat) (c : config) :
  exec promiseList (S N) abortOnFail fuel c
  = exec promiseList (S M) abortOnFail fuel c.
Proof.
  revert c. induction fuel as [|fuel IH]; intros c; simpl; [done|].
  rewrite (next_threads_irrelevant _ _ N M).
  destruct (next promiseList (S M) abortOnFail c); [apply IH|done].
Qed.

Lemma step_threads_irrelevant (promiseList : list job) (abortOnFail : bool)
    (N M : nat) (c c' : config) :
  step promiseList (S N) abortOnFail c c' →
  step promiseList (S M) abortOnFail c c'.
Proof.
  intros [l c0 st' H|c0 c0' H]; [by eapply step_job|].
  apply step_returned. unfold settle_returned in *.
  by rewrite awaited_S in *.
Qed.

(** *** Reading the rejection object *)

Lemma get_set_field_eq (k : string) (v : value) (fs : list (string * value)) :
  get_field k (set_field k v fs) = v.
Proof.
  induction fs as [|[k' v'] fs IH]; simpl.
  - by rewrite String.eqb_refl.
  - destruct (String.eqb k k') eqn:E; simpl.
    + by rewrite String.eqb_refl.
    + by rewrite E.
Qed.

Lemma get_set_field_ne (k k' : string) (v : value)
    (fs : list (string * value)) :
  k' ≠ k → get_field k' (set_field k v fs) = get_field k' fs.
Proof.
  intros Hne. induction fs as [|[a v'] fs IH]; simpl.
  - by apply String.eqb_neq in Hne as ->.
  - destruct (String.eqb k a) eqn:E; simpl.
    + apply String.eqb_eq in E as <-.
      by apply String.eqb_neq in Hne as ->.
    + by rewrite IH.
Qed.

Lemma rejection_own (result : value) (rl : list value) :
  rejection result rl
  = VObj (set_field "resultList" (VArr rl) (own_fields result)).
Proof. by destruct result. Qed.

Lemma has_error_defined (result : value) :
  has_error result = true → error_of result ≠ VUndefined.
Proof.
  unfold has_error. intros H Hu. rewrite Hu in H.
  by rewrite andb_false_r in H.
Qed.

Lemma has_set_field_ne (k k' : string) (v : value)
    (fs : list (string * value)) :
  k' ≠ k → has_field k' (set_field k v fs) = has_field k' fs.
Proof.
  intros Hne. induction fs as [|[a v'] fs IH]; simpl.
  - apply String.eqb_neq in Hne as ->. done.
  - destruct (String.eqb k a) eqn:E; simpl.
    + apply String.eqb_eq in E as <-. done.
    + by rewrite IH.
Qed.

Lemma phase_rejected (promiseList : list job) (abortOnFail : bool)
    (st : state) (r : value) :
  phase promiseList abortOnFail st → promise_of st 0 = PRejected r →
  abortOnFail = true ∧ hasAborted st = true ∧
  ∃ i slot,
    jobIndex st = Z.of_nat i ∧ i < totalJobs promiseList ∧
    length (calls st) = S i ∧
    resultList st !! i = Some slot ∧
    error_of slot ≠ VUndefined ∧
    r = VObj (set_field "resultList" (VArr (resultList st))
                (own_fields slot)) ∧
    (∀ k, k < i → ∃ v, resultList st !! k = Some v ∧ v ≠ Empty) ∧
    (∀ k, i < k → k < totalJobs promiseList →
          resultList st !! k = Some Empty).
Proof.
  unfold promise_of.
  intros [i j _ _ _ Hl _ _|_ Hl _ _|i j s res B Hab Hjob _ _ He Hslot Hl Hj Ha];
    rewrite Hl; simpl; [done|done|].
  intros [= <-]. split_and!; try done.
  exists i, res. split_and!; try done.
  - by eapply lookup_lt_Some.
  - apply B.
  - by apply has_error_defined.
  - apply rejection_own.
  - intros k Hk. apply (snap_done _ _ _ (base_snapshot _ _ _ _ B)). lia.
  - intros k Hk1 Hk2. apply (base_todo _ _ _ _ B); [lia|done].
Qed.

(** ** Further properties of [runSequentialPromises] *)

Lemma sequential_outcome (promiseList : list job) (N : nat)
    (abortOnFail : bool) :
  runSequentialPromises promiseList (S N) abortOnFail
  = sequential promiseList abortOnFail.
Proof.
  unfold runSequentialPromises, run, sequential.
  apply (exec_sequential promiseList abortOnFail N
           (totalJobs promiseList + 1) 0
           (replicate (totalJobs promiseList) Empty) []).
  - apply length_replicate.
  - lia.
  - lia.
Qed.

(** X1.  With [threadsNumber] from 1 up and below 2^32 (and a job list
    shorter than 2^32, as every array is) the call returns a promise with
    exactly the outcome of the plain sequential loop over the jobs: the same
    resolved list, the same rejection object, or no settlement at all. *)
Theorem runs_as_sequential_loop (promiseList : list job) (threadsNumber : nat)
    (abortOnFail : bool) :
  1 ≤ threadsNumber → (Z.of_nat threadsNumber < 2 ^ 32)%Z →
  (Z.of_nat (length promiseList) < 2 ^ 32)%Z →
  call promiseList threadsNumber abortOnFail
  = Returns (sequential promiseList abortOnFail).
Proof.
  intros HN Hmax Hlen. destruct threadsNumber as [|N]; [lia|].
  rewrite call_returns by done. f_equal. apply sequential_outcome.
Qed.

Lemma runs_as_sequential_loop_witness :
  1 ≤ 4 ∧ (Z.of_nat 4 < 2 ^ 32)%Z ∧
  (Z.of_nat (length [echo; rejects_with (VStr "no"); echo]) < 2 ^ 32)%Z ∧
  call [echo; rejects_with (VStr "no"); echo] 4 false
  = Returns (sequential [echo; rejects_with (VStr "no"); echo] false).
Proof.
  split; [lia|]. split; [lia|]. split; [simpl; lia|].
  apply (runs_as_sequential_loop [echo; rejects_with (VStr "no"); echo] 4 false);
    [lia|lia|simpl; lia].
Defined.

(** X2.  Any two values of [threadsNumber] from 1 up and below 2^32 give the
    same call: the same completion, the same reachable configurations and
    the same final one, with the same calls, slots and outcome. *)
Theorem threads_number_has_no_effect (promiseList : list job) (N M : nat)
    (abortOnFail : bool) :
  1 ≤ N → 1 ≤ M → (Z.of_nat N < 2 ^ 32)%Z → (Z.of_nat M < 2 ^ 32)%Z →
  call promiseList N abortOnFail = call promiseList M abortOnFail ∧
  run promiseList N abortOnFail = run promiseList M abortOnFail ∧
  ∀ c, reachable promiseList N abortOnFail c ↔
       reachable promiseList M abortOnFail c.
Proof.
  intros HN HM HN' HM'. destruct N as [|N]; [lia|]. destruct M as [|M]; [lia|].
  assert (run promiseList (S N) abortOnFail = run promiseList (S M) abortOnFail)
    as Hrun by apply exec_threads_irrelevant.
  split_and!; [|done|].
  - unfold call, runSequentialPromises.
    by rewrite Hrun, !(array_length_ok_lt (S _)).
  - intros c. split; intros R; eapply rtc_congruence with (f := id);
      try exact R; intros x y; apply step_threads_irrelevant.
Qed.

Lemma threads_number_has_no_effect_witness :
  1 ≤ 1 ∧ 1 ≤ 3 ∧ (Z.of_nat 1 < 2 ^ 32)%Z ∧ (Z.of_nat 3 < 2 ^ 32)%Z ∧
  call [echo; echo] 1 true = call [echo; echo] 3 true.
Proof.
  split; [lia|]. split; [lia|]. split; [lia|]. split; [lia|].
  apply (threads_number_has_no_effect [echo; echo] 1 3 true); lia.
Defined.

(** X3.  With no jobs the call resolves with the empty list and calls
    nothing, whatever [abortOnFail] is and for every [threadsNumber] below
    2^32, 0 included; from 2^32 on it throws a [RangeError]. *)
Theorem empty_input_resolves (threadsNumber : nat) (abortOnFail : bool) :
  ((Z.of_nat threadsNumber < 2 ^ 32)%Z →
   call [] threadsNumber abortOnFail = Returns (Resolves []) ∧
   calls (shared (run [] threadsNumber abortOnFail)) = []) ∧
  ((2 ^ 32 ≤ Z.of_nat threadsNumber)%Z →
   call [] threadsNumber abortOnFail = ThrowsRangeError).
Proof.
  split.
  - intros Hmax. rewrite call_returns by done.
    destruct threadsNumber as [|N]; [done|].
    unfold runSequentialPromises, run.
    rewrite (exec_threads_irrelevant _ _ N 0). done.
  - intros Hmax. unfold call, array_length_ok.
    destruct (Z.ltb_spec (Z.of_nat threadsNumber) (2 ^ 32)); [lia|].
    by destruct (_ <? _)%Z.
Qed.

Lemma empty_input_resolves_witness :
  (Z.of_nat 2 < 2 ^ 32)%Z ∧ call [] 2 true = Returns (Resolves []).
Proof.
  split; [lia|].
  apply (empty_input_resolves 2 true). lia.
Defined.

(** X4.  When [threadsNumber] is from 1 up and below 2^32 and every job
    fulfils with a value that has no defined [error] property, the call
    resolves, for both settings of [abortOnFail], with a list as long as the
    job list whose slot [i] is the [Success] of what job [i] fulfilled with
    when it was given the resolved list below [i] and [null] from [i] on. *)
Theorem clean_jobs_all_succeed (promiseList : list job) (threadsNumber : nat)
    (abortOnFail : bool) :
  1 ≤ threadsNumber → (Z.of_nat threadsNumber < 2 ^ 32)%Z →
  (Z.of_nat (length promiseList) < 2 ^ 32)%Z →
  Forall fulfils_cleanly promiseList →
  ∃ rl,
    call promiseList threadsNumber abortOnFail = Returns (Resolves rl) ∧
    length rl = length promiseList ∧
    ∀ i j, promiseList !! i = Some j →
      ∃ d, j (take i rl ++ replicate (length promiseList - i) Empty)%list
           = Fulfilled d ∧
           rl !! i = Some (Success i d).
Proof.
  intros HN Hmax Hlen HF. destruct threadsNumber as [|N]; [lia|].
  rewrite call_returns, sequential_outcome by done.
  destruct (loop_clean abortOnFail 0 promiseList
              (replicate (length promiseList) Empty) HF)
    as (rl & Heq & Hl & _ & Hin); [rewrite length_replicate; lia|].
  exists rl. split_and!; [by f_equal|by rewrite Hl, length_replicate|].
  intros i j Hj. destruct (Hin i j Hj) as (d & Hd & Hs).
  simpl in Hd, Hs. rewrite drop_replicate in Hd. by exists d.
Qed.

Lemma clean_jobs_all_succeed_witness :
  1 ≤ 2 ∧ (Z.of_nat 2 < 2 ^ 32)%Z ∧
  (Z.of_nat (length [echo; resolves_with VNull]) < 2 ^ 32)%Z ∧
  Forall fulfils_cleanly [echo; resolves_with VNull] ∧
  ∃ rl, call [echo; resolves_with VNull] 2 true = Returns (Resolves rl) ∧
        length rl = 2 ∧
        ∀ i j, [echo; resolves_with VNull] !! i = Some j →
          ∃ d, j (take i rl ++ replicate (2 - i) Empty)%list = Fulfilled d ∧
               rl !! i = Some (Success i d).
Proof.
  assert (Forall fulfils_cleanly [echo; resolves_with VNull]) as HF.
  { repeat constructor; intros s; eexists; split; reflexivity. }
  split; [lia|]. split; [lia|]. split; [simpl; lia|]. split; [exact HF|].
  apply (clean_jobs_all_succeed [echo; resolves_with VNull] 2 true);
    [lia|lia|simpl; lia|exact HF].
Defined.

(** X5.  Under [abortOnFail], with [threadsNumber] from 1 up and below
    2^32, when the jobs before position [k] fulfil with values that have no
    defined [error] property and job [k] rejects with a reason other than
    [undefined], the call rejects with
    [{ promiseIndex: k, error, resultList }]: [error] is the reason job [k]
    rejected with when given that list below [k] and [null] from [k] on;
    [resultList] has the length of the job list, below [k] the [Success] of
    what each job fulfilled with, at [k] the [Failure] of that reason, and
    [null] after it, whatever the later jobs are. *)
Theorem first_failure_aborts (pre : list job) (j : job) (rest : list job)
    (threadsNumber : nat) :
  1 ≤ threadsNumber → (Z.of_nat threadsNumber < 2 ^ 32)%Z →
  (Z.of_nat (length (pre ++ j :: rest)) < 2 ^ 32)%Z →
  Forall fulfils_cleanly pre → rejects_really j →
  ∃ e rl,
    call (pre ++ j :: rest) threadsNumber true
    = Returns (Rejects (VObj [("promiseIndex", VNum (Z.of_nat (length pre)));
                              ("error", e); ("resultList", VArr rl)])) ∧
    j (take (length pre) rl
       ++ replicate (length (pre ++ j :: rest) - length pre) Empty)%list
    = Rejected e ∧
    e ≠ VUndefined ∧
    length rl = length (pre ++ j :: rest) ∧
    rl !! length pre = Some (Failure (length pre) e) ∧
    (∀ i p, pre !! i = Some p →
       ∃ d, p (take i rl
               ++ replicate (length (pre ++ j :: rest) - i) Empty)%list
            = Fulfilled d ∧
            rl !! i = Some (Success i d)) ∧
    (∀ k, length pre < k → k < length (pre ++ j :: rest) →
          rl !! k = Some Empty).
Proof.
  intros HN Hmax Hlen HF Hj. destruct threadsNumber as [|N]; [lia|].
  rewrite call_returns, sequential_outcome by done. unfold sequential.
  destruct (loop_abort 0 pre j rest
              (replicate (length (pre ++ j :: rest)) Empty) HF Hj)
    as (e & rl & Heq & Hje & He & Hl & Hk & Hin & Hout).
  { rewrite length_replicate, length_app; simpl; lia. }
  simpl in Heq, Hje, Hk, Hout. rewrite drop_replicate in Hje.
  exists e, rl. split_and!; try done.
  - by f_equal.
  - by rewrite Hl, length_replicate.
  - intros i p Hp. destruct (Hin i p Hp) as (d & Hd & Hs).
    simpl in Hd, Hs. rewrite drop_replicate in Hd. by exists d.
  - intros k Hk1 Hk2. rewrite Hout by lia. by apply lookup_replicate_2.
Qed.

Lemma first_failure_aborts_witness :
  1 ≤ 1 ∧ (Z.of_nat 1 < 2 ^ 32)%Z ∧
  (Z.of_nat (length ([echo] ++ rejects_with VNull :: [hangs])) < 2 ^ 32)%Z ∧
  Forall fulfils_cleanly [echo] ∧ rejects_really (rejects_with VNull) ∧
  ∃ e rl,
    call ([echo] ++ rejects_with VNull :: [hangs]) 1 true
    = Returns (Rejects (VObj [("promiseIndex", VNum 1); ("error", e);
                              ("resultList", VArr rl)])) ∧
    e ≠ VUndefined.
Proof.
  assert (Forall fulfils_cleanly [echo]) as HF.
  { repeat constructor; intros s; eexists; split; reflexivity. }
  assert (rejects_really (rejects_with VNull)) as Hj.
  { intros s. eexists. split; [reflexivity|discriminate]. }
  split; [lia|]. split; [lia|]. split; [simpl; lia|].
  split; [exact HF|]. split; [exact Hj|].
  destruct (first_failure_aborts [echo] (rejects_with VNull) [hangs] 1)
    as (e & rl & Heq & _ & He & _); [lia|lia|simpl; lia|exact HF|exact Hj|].
  exists e, rl. split; [exact Heq|exact He].
Defined.

(** X6.  With [abortOnFail = false] the abort flag is never set and neither
    the lane promise nor the returned promise is ever rejected, whatever the
    jobs do and whatever [threadsNumber] is (line 23: "The Promise is never
    rejected"). *)
Theorem never_rejected_without_abort (promiseList : list job)
    (threadsNumber : nat) (c : config) :
  reachable promiseList threadsNumber false c →
  hasAborted (shared c) = false ∧
  ∀ r, promise_of (shared c) 0 ≠ PRejected r ∧ returned c ≠ PRejected r.
Proof.
  intros R. destruct (reachable_consistent _ _ _ _ R) as [P C].
  assert (hasAborted (shared c) = false) as Ha.
  { destruct P as [i j _ _ _ _ _ Ha|_ _ _ Ha|i j s r _ Hab _ _ _ _ _ _ _ _];
      [done|done|discriminate Hab]. }
  split; [done|]. intros r.
  pose proof (phase_not_aborted _ _ _ P Ha r) as Hp. split; [done|].
  destruct C as [->|[_ ->]]; [done|].
  destruct threadsNumber as [|N]; [done|]. by rewrite awaited_S.
Qed.

Lemma never_rejected_without_abort_witness :
  reachable [rejects_with (VStr "no"); echo] 2 false
    (run [rejects_with (VStr "no"); echo] 2 false) ∧
  hasAborted (shared (run [rejects_with (VStr "no"); echo] 2 false)) = false.
Proof.
  split; [apply run_reachable|].
  apply (never_rejected_without_abort [rejects_with (VStr "no"); echo] 2).
  apply run_reachable.
Defined.

(** X7.  With [abortOnFail = false], [threadsNumber] from 1 up and below
    2^32, and jobs whose promises settle, the call resolves with a list as
    long as the job list in which no slot is [null], after calling the jobs
    0, 1, ..., n-1 once each, in this order, failures included. *)
Theorem all_jobs_run_without_abort (promiseList : list job)
    (threadsNumber : nat) :
  1 ≤ threadsNumber → (Z.of_nat threadsNumber < 2 ^ 32)%Z →
  (Z.of_nat (length promiseList) < 2 ^ 32)%Z →
  Forall settles promiseList →
  ∃ rl,
    call promiseList threadsNumber false = Returns (Resolves rl) ∧
    length rl = length promiseList ∧
    (∀ i, i < length promiseList → ∃ v, rl !! i = Some v ∧ v ≠ Empty) ∧
    (calls (shared (run promiseList threadsNumber false))).*1
    = seq 0 (length promiseList).
Proof.
  intros HN Hmax Hlen Hs.
  destruct (collects_everything promiseList false threadsNumber HN eq_refl Hs)
    as (_ & Hret & Hcalls & Hlen' & Hrec).
  exists (resultList (shared (run promiseList threadsNumber false))).
  split_and!; try done.
  - rewrite call_returns by done. f_equal.
    unfold runSequentialPromises, observe. by rewrite Hret.
  - intros i Hi. destruct (Hrec i Hi) as (j & s & r & _ & _ & _ & Hslot).
    eexists. split; [exact Hslot|apply slot_for_filled].
Qed.

Lemma all_jobs_run_without_abort_witness :
  1 ≤ 1 ∧ (Z.of_nat 1 < 2 ^ 32)%Z ∧
  (Z.of_nat (length [rejects_with VUndefined; echo]) < 2 ^ 32)%Z ∧
  Forall settles [rejects_with VUndefined; echo] ∧
  (calls (shared (run [rejects_with VUndefined; echo] 1 false))).*1 = seq 0 2.
Proof.
  assert (Forall settles [rejects_with VUndefined; echo]) as Hs.
  { repeat constructor; intros s; discriminate. }
  split; [lia|]. split; [lia|]. split; [simpl; lia|]. split; [exact Hs|].
  destruct (all_jobs_run_without_abort [rejects_with VUndefined; echo] 1)
    as (rl & _ & _ & _ & Hcalls); [lia|lia|simpl; lia|exact Hs|exact Hcalls].
Defined.

(** X8.  Whenever the returned promise is rejected, [abortOnFail] is set,
    the abort flag is set, and the rejection object is the spread of the
    slot stored for the job at the cursor, under a [resultList] property:
    its [resultList] is the result list and its other properties are the
    own enumerable properties of the slot.  The [error] of the slot, read as
    line 52 reads it, is defined; when it is not an own enumerable property
    the rejection object does not have it.  That job is the last one
    called; the slots before it are written and the slots after it are
    [null]. *)
Theorem rejection_is_the_failed_slot (promiseList : list job)
    (threadsNumber : nat) (abortOnFail : bool) (c : config) (r : value) :
  reachable promiseList threadsNumber abortOnFail c →
  returned c = PRejected r →
  abortOnFail = true ∧ hasAborted (shared c) = true ∧
  ∃ i slot payload,
    jobIndex (shared c) = Z.of_nat i ∧ i < length promiseList ∧
    length (calls (shared c)) = S i ∧
    resultList (shared c) !! i = Some slot ∧
    error_of slot ≠ VUndefined ∧
    r = VObj payload ∧
    get_field "resultList" payload = VArr (resultList (shared c)) ∧
    (∀ k, k ≠ "resultList" →
          get_field k payload = get_field k (own_fields slot) ∧
          has_field k payload = has_field k (own_fields slot)) ∧
    (∀ k, k < i → ∃ v, resultList (shared c) !! k = Some v ∧ v ≠ Empty) ∧
    (∀ k, i < k → k < length promiseList →
          resultList (shared c) !! k = Some Empty).
Proof.
  intros R Hr. destruct (reachable_consistent _ _ _ _ R) as [P [C|[_ C]]];
    [congruence|].
  rewrite Hr in C. destruct threadsNumber as [|N]; [done|].
  rewrite awaited_S in C. symmetry in C.
  destruct (phase_rejected _ _ _ _ P C)
    as (Hab & Ha & i & slot & Hj & Hi & Hc & Hslot & He & -> & Hdone & Htodo).
  split_and!; try done.
  exists i, slot,
    (set_field "resultList" (VArr (resultList (shared c))) (own_fields slot)).
  split_and!; try done.
  - apply get_set_field_eq.
  - intros k Hk. split; [by apply get_set_field_ne|by apply has_set_field_ne].
Qed.

Lemma rejection_is_the_failed_slot_witness :
  reachable [resolves_with (VObjInheriting [("error", VStr "x")] []); echo]
    1 true
    (run [resolves_with (VObjInheriting [("error", VStr "x")] []); echo]
       1 true) ∧
  returned
    (run [resolves_with (VObjInheriting [("error", VStr "x")] []); echo]
       1 true)
  = PRejected (VObj [("resultList",
                      VArr [VObjInheriting [("error", VStr "x")] []; Empty])]) ∧
  hasAborted
    (shared
       (run [resolves_with (VObjInheriting [("error", VStr "x")] []); echo]
          1 true)) = true.
Proof.
  split; [apply run_reachable|]. split; [reflexivity|].
  eapply (rejection_is_the_failed_slot
            [resolves_with (VObjInheriting [("error", VStr "x")] []); echo]
            1 true).
  - apply run_reachable.
  - reflexivity.
Defined.

(** X9.  Once the abort flag is set, the lane promise is rejected, no job is
    in flight, and nothing more happens to the shared state: no job is
    called, no slot is written and the cursor does not move, however the
    run goes on. *)
Theorem nothing_runs_after_abort (promiseList : list job) (threadsNumber : nat)
    (abortOnFail : bool) (c : config) :
  reachable promiseList threadsNumber abortOnFail c →
  hasAborted (shared c) = true →
  (∃ r, promise_of (shared c) 0 = PRejected r) ∧
  in_flight (shared c) = [] ∧
  ∀ c', rtc (step promiseList threadsNumber abortOnFail) c c' →
        shared c' = shared c.
Proof.
  intros R Ha. destruct (reachable_consistent _ _ _ _ R) as [P _].
  destruct (phase_aborted_idle _ _ _ P Ha) as (_ & Hr & Hfl & Hidle).
  split_and!; try done.
  intros c' S. induction S as [c|c c1 c' S1 S IH]; [done|].
  assert (shared c1 = shared c) as Heq.
  { destruct S1 as [l c st' H|c c1 H].
    - by rewrite Hidle in H.
    - by apply settle_returned_Some in H as (_ & -> & _). }
  rewrite <- Heq. apply IH; rewrite ?Heq; try done.
  eapply rtc_r; [exact R|exact S1].
Qed.

Lemma nothing_runs_after_abort_witness :
  reachable [rejects_with VNull; echo] 1 true
    (run [rejects_with VNull; echo] 1 true) ∧
  hasAborted (shared (run [rejects_with VNull; echo] 1 true)) = true ∧
  in_flight (shared (run [rejects_with VNull; echo] 1 true)) = [].
Proof.
  split; [apply run_reachable|]. split; [reflexivity|].
  apply (nothing_runs_after_abort [rejects_with VNull; echo] 1 true);
    [apply run_reachable|reflexivity].
Defined.

(** X10.  With [threadsNumber >= 1], once the returned promise is settled
    the run is over: the lane is settled, no job is in flight, and no
    further step exists, so the list a caller receives is final. *)
Theorem settled_run_is_over (promiseList : list job) (threadsNumber : nat)
    (abortOnFail : bool) (c : config) :
  1 ≤ threadsNumber →
  reachable promiseList threadsNumber abortOnFail c →
  returned c ≠ PPending →
  promise_of (shared c) 0 = returned c ∧
  in_flight (shared c) = [] ∧
  quiescent promiseList threadsNumber abortOnFail c ∧
  c = run promiseList threadsNumber abortOnFail.
Proof.
  intros HN R Hret. destruct threadsNumber as [|N]; [lia|].
  destruct (reachable_consistent _ _ _ _ R) as [P [C|[_ C]]]; [done|].
  rewrite awaited_S in C.
  assert (promise_of (shared c) 0 ≠ PPending) as Hp by (by rewrite <- C).
  pose proof (phase_settled_idle _ _ _ P Hp) as Hidle.
  assert (quiescent promiseList (S N) abortOnFail c) as Q.
  { intros c' S. destruct S as [l c st' H|c c' H].
    - by rewrite Hidle in H.
    - apply settle_returned_Some in H as (H & _). done. }
  split_and!; try done.
  - destruct (phase_in_flight _ _ _ P) as [?|(i & Hfl & _)]; [done|].
    exfalso. destruct (phase_waiting _ _ _ _ P Hfl) as (j & _ & _ & _ & Hl).
    unfold promise_of in Hp. by rewrite Hl in Hp.
  - apply (quiescent_unique promiseList abortOnFail (S N));
      [done|apply run_reachable|done|apply run_quiescent].
Qed.

Lemma settled_run_is_over_witness :
  1 ≤ 2 ∧
  reachable [echo; echo] 2 true (run [echo; echo] 2 true) ∧
  returned (run [echo; echo] 2 true) ≠ PPending ∧
  in_flight (shared (run [echo; echo] 2 true)) = [].
Proof.
  split; [lia|]. split; [apply run_reachable|]. split; [discriminate|].
  apply (settled_run_is_over [echo; echo] 2 true);
    [lia|apply run_reachable|discriminate].
Defined.

(** X11.  With [threadsNumber = 0] the returned promise is never rejected:
    it is pending or resolved in every configuration, also when the lane
    promise has been rejected under [abortOnFail]. *)
Theorem zero_threads_never_reject (promiseList : list job)
    (abortOnFail : bool) (c : config) :
  reachable promiseList 0 abortOnFail c →
  returned c = PPending ∨ returned c = PResolved.
Proof.
  intros R. destruct (reachable_consistent _ _ _ _ R) as [_ [C|[_ C]]];
    [by left|by right].
Qed.

Lemma zero_threads_never_reject_witness :
  reachable [rejects_with VNull] 0 true (run [rejects_with VNull] 0 true) ∧
  promise_of (shared (run [rejects_with VNull] 0 true)) 0
  = PRejected (VObj [("promiseIndex", VNum 0); ("error", VNull);
                     ("resultList", VArr [Failure 0 VNull])]) ∧
  (returned (run [rejects_with VNull] 0 true) = PPending ∨
   returned (run [rejects_with VNull] 0 true) = PResolved).
Proof.
  split; [apply run_reachable|]. split; [reflexivity|].
  apply (zero_threads_never_reject [rejects_with VNull] true).
  apply run_reachable.
Defined.

(** X12.  With [threadsNumber >= 1], when the promise of the job in flight
    never settles the run hangs: no step is possible, the returned promise
    stays pending and the later jobs are never called (there is no
    timeout). *)
Theorem hung_job_hangs_the_run (promiseList : list job) (threadsNumber : nat)
    (abortOnFail : bool) (c : config) (i : nat) (j : job) :
  1 ≤ threadsNumber →
  reachable promiseList threadsNumber abortOnFail c →
  in_flight (shared c) = [i] → promiseList !! i = Some j →
  j (resultList (shared c)) = Pending →
  quiescent promiseList threadsNumber abortOnFail c ∧
  observe c = Unsettled ∧
  c = run promiseList threadsNumber abortOnFail ∧
  length (calls (shared c)) = S i.
Proof.
  intros HN R Hfl Hjob Hpend. destruct threadsNumber as [|N]; [lia|].
  destruct (reachable_consistent _ _ _ _ R) as [P C].
  destruct (phase_waiting _ _ _ _ P Hfl) as (j' & Hjob' & _ & _ & Hl).
  pose proof (eq_trans (eq_sym Hjob') Hjob) as Hjj. injection Hjj as ->.
  assert (promise_of (shared c) 0 = PPending) as Hp
    by (unfold promise_of; by rewrite Hl).
  assert (returned c = PPending) as Hret.
  { destruct C as [?|[Hne C]]; [done|].
    rewrite awaited_S, Hp in C. done. }
  assert (quiescent promiseList (S N) abortOnFail c) as Q.
  { intros c' S. destruct S as [l c st' H|c c' H].
    - pose proof (settle_job_lane _ _ _ _ _ P H) as ->.
      unfold settle_job in H. rewrite Hl, Hpend in H. done.
    - apply settle_returned_Some in H as (_ & _ & H & Hne).
      rewrite awaited_S, Hp in H. done. }
  split_and!; try done.
  - unfold observe. by rewrite Hret.
  - apply (quiescent_unique promiseList abortOnFail (S N));
      [done|apply run_reachable|done|apply run_quiescent].
  - destruct (phase_in_flight _ _ _ P) as [F|(i' & F & Hlen & _)];
      rewrite F in Hfl; [done|]. by injection Hfl as <-.
Qed.

Lemma hung_job_hangs_the_run_witness :
  1 ≤ 3 ∧
  reachable [echo; hangs; echo] 3 false (run [echo; hangs; echo] 3 false) ∧
  in_flight (shared (run [echo; hangs; echo] 3 false)) = [1] ∧
  runSequentialPromises [echo; hangs; echo] 3 false = Unsettled.
Proof.
  split; [lia|]. split; [apply run_reachable|]. split; [reflexivity|].
  eapply (hung_job_hangs_the_run [echo; hangs; echo] 3 false _ 1 hangs);
    [lia|apply run_reachable|reflexivity|reflexivity|reflexivity].
Defined.

(** *** One reaction of the lane, in closed form *)

Lemma settle_job_explicit (promiseList : list job) (ab : bool) (i : nat)
    (s : settlement) (rl : list value) (cs : list (nat * list value))
    (result : value) :
  i < length rl → caught i s = Some result →
  settle_job promiseList ab 0
    (State (Z.of_nat i) false rl [Lane PPending (Some (i, s))] cs)
  = Some
      (if has_error result && ab
       then State (Z.of_nat i) true (<[i := slot_for i result]> rl)
              [Lane (PRejected
                       (rejection result (<[i := slot_for i result]> rl)))
                    None] cs
       else match promiseList !! S i with
            | Some j =>
                State (Z.of_nat (S i)) false (<[i := slot_for i result]> rl)
                  [Lane PPending
                     (Some (S i, j (<[i := slot_for i result]> rl)))]
                  (cs ++ [(S i, <[i := slot_for i result]> rl)])
            | None =>
                State (Z.of_nat (S i)) false (<[i := slot_for i result]> rl)
                  [Lane PResolved None] cs
            end).
Proof.
  intros Hi Hc. unfold settle_job. cbn [lanes lookup list_lookup]. rewrite Hc.
  f_equal.
  unfold on_result, write_slot, set_lane, array_set, slot_for.
  cbn [hasAborted resultList jobIndex lanes calls].
  rewrite !decide_True by lia.
  destruct (has_error result) eqn:He; cbn [andb].
  - destruct ab.
    + unfold lane_settle, set_aborted, set_lane.
      by cbn [hasAborted resultList jobIndex lanes calls lookup list_lookup
              insert list_insert lane_promise lane_job settle].
    + replace (Z.of_nat i) with (Z.of_nat (S i) - 1)%Z at 1 by lia.
      cbn [insert list_insert]. apply runNext_explicit.
  - replace (Z.of_nat i) with (Z.of_nat (S i) - 1)%Z at 1 by lia.
    cbn [insert list_insert]. apply runNext_explicit.
Qed.

Lemma snapshots_agree (promiseList : list job) (N : nat) (ab : bool)
    (c : config) :
  reachable promiseList N ab c →
  ∀ i snapshot, calls (shared c) !! i = Some (i, snapshot) →
    ∀ k, k < i → snapshot !! k = resultList (shared c) !! k.
Proof.
  unfold reachable. revert c.
  refine (rtc_ind_r
            (λ c, ∀ i snapshot, calls (shared c) !! i = Some (i, snapshot) →
                    ∀ k, k < i → snapshot !! k = resultList (shared c) !! k)
            _ _ _).
  - unfold start, getPromiseThread, fresh.
    cbn [fst snd shared lanes jobIndex hasAborted resultList calls app length].
    change (-1)%Z with (Z.of_nat 0 - 1)%Z. rewrite runNext_explicit.
    destruct (promiseList !! 0); cbn [calls app]; intros [|i] snap H k Hk;
      try lia; discriminate H.
  - intros c c' R S IH.
    destruct (reachable_consistent _ _ _ _ R) as [P _].
    destruct S as [l c st' H|c c' H];
      [|by apply settle_returned_Some in H as (_ & -> & _)].
    pose proof (settle_job_lane _ _ _ _ _ P H) as ->.
    cbn [shared].
    destruct P as [i0 j B Hjob Hcall Hl Hj Ha|_ Hl _ _|? ? ? ? _ _ _ _ _ _ _ Hl _ _];
      [|unfold settle_job in H; rewrite Hl in H; discriminate H..].
    pose proof (base_length _ _ _ _ B) as Hlen.
    pose proof (base_calls _ _ _ _ B) as Hcs.
    pose proof (lookup_lt_Some _ _ _ Hjob) as Hi0.
    change (i0 < totalJobs promiseList) in Hi0.
    destruct (shared c) as [ji ha rl ls cs]; simpl in *; subst.
    destruct (caught i0 (j rl)) as [result|] eqn:Hc;
      [|unfold settle_job in H; simpl in H; rewrite Hc in H; discriminate H].
    rewrite (settle_job_explicit _ _ _ _ _ _ result) in H by (done || lia).
    injection H as <-.
    assert (∀ i snap, cs !! i = Some (i, snap) → ∀ k, k < i →
              snap !! k = <[i0:=slot_for i0 result]> rl !! k) as Hold.
    { intros i snap Hs k Hk. rewrite (IH i snap Hs k Hk).
      symmetry. apply list_lookup_insert_ne.
      apply lookup_lt_Some in Hs. lia. }
    destruct (has_error result && ab); [exact Hold|].
    destruct (promiseList !! S i0); [|exact Hold].
    cbn [calls resultList]. intros i snap Hs k Hk.
    apply lookup_app_Some in Hs as [Hs|[_ Hs]]; [by eapply Hold|].
    apply list_lookup_singleton_Some in Hs as [_ Hs]. by injection Hs as _ <-.
Qed.

(** X13.  The snapshot passed to job [i] holds, below [i], exactly the slots
    found in the result list at any later time of the run: a job sees the
    recorded outcomes of all the jobs before it, as the caller will. *)
Theorem snapshot_holds_earlier_results (promiseList : list job)
    (threadsNumber : nat) (abortOnFail : bool) (c : config) :
  reachable promiseList threadsNumber abortOnFail c →
  ∀ i snapshot, (i, snapshot) ∈ calls (shared c) →
    ∀ k, k < i → snapshot !! k = resultList (shared c) !! k.
Proof.
  intros R i snapshot Hin k Hk.
  destruct (reachable_consistent _ _ _ _ R) as [P _].
  pose proof (phase_calls _ _ _ P) as (_ & _ & Hlog).
  apply list_elem_of_lookup in Hin as [m Hm].
  destruct (Hlog _ _ Hm) as [Hi _]. simpl in Hi. subst m.
  by eapply snapshots_agree.
Qed.

Lemma snapshot_holds_earlier_results_witness :
  reachable [resolves_with (VNum 5); echo] 1 true
    (run [resolves_with (VNum 5); echo] 1 true) ∧
  (1, [Success 0 (VNum 5); Empty])
    ∈ calls (shared (run [resolves_with (VNum 5); echo] 1 true)) ∧
  [Success 0 (VNum 5); Empty] !! 0
  = resultList (shared (run [resolves_with (VNum 5); echo] 1 true)) !! 0.
Proof.
  assert ((1, [Success 0 (VNum 5); Empty])
            ∈ calls (shared (run [resolves_with (VNum 5); echo] 1 true))) as Hin.
  { apply list_elem_of_lookup. exists 1. reflexivity. }
  split; [apply run_reachable|]. split; [exact Hin|].
  apply (snapshot_holds_earlier_results [resolves_with (VNum 5); echo] 1 true
           _ (run_reachable _ _ _) 1 _ Hin 0).
  lia.
Defined.
